(** * GeoModel: lazy interpolation input and solution distribution

    A shallow embedding of [gempy/core/data/geo_model.py].

    Python objects that are mutated through references (structural groups
    and structural elements) live in an object store and are named by
    references; attribute assignment is an update of the store.  A method
    is a computation in a small state-and-exception monad: an exception
    stops the method and leaves the store as it was at the [raise].

    Array entries that are floats in the program are exact rationals here;
    rounding is modelled for the two affine maps of the transform only,
    which are also given in binary64. *)

From Stdlib Require Import ZArith QArith Qabs Lia SpecFloat.
From stdpp Require Import base option list gmap strings.

Local Open Scope Z_scope.

(** ** Exceptions, warnings *)

Inductive Exception : Type :=
| IndexError
| DegenerateInputError.

Inductive Outcome (A : Type) : Type :=
| Return (a : A)
| Raise (e : Exception).
Arguments Return {A} a.
Arguments Raise {A} e.

Inductive WarningCategory : Type := UserWarning.

Record Warning : Type := mkWarning {
  message : string;
  category : WarningCategory
}.

(** ** Tables and arrays *)

(** A row of an (n, 3) coordinate array. *)
Definition Point : Type := (Q * Q * Q)%type.

(** A row of an (m, 3) array of vertex indices. *)
Definition Triple : Type := (Z * Z * Z)%type.

Record SurfacePoint : Type := mkSurfacePoint {
  sp_xyz : Point;
  sp_id : Z
}.

Record Orientation : Type := mkOrientation {
  o_xyz : Point;
  o_grad : Point;
  o_id : Z
}.

(** [a[e]] for a non-negative index: IndexError out of range. *)
Definition index {A : Type} (a : list A) (e : nat) : Outcome A :=
  match a !! e with
  | Some x => Return x
  | None => Raise IndexError
  end.

(** ** Transform *)

Module Transform.

(** Modelled from the spec: [transforms.py] is not among the sources.  A
    transform is a translation vector, a scale vector and an optional
    rotation. *)
Record t : Type := mk {
  position : Point;
  scale : Point;
  rotation : option Point
}.

Definition pmap2 (f : Q -> Q -> Q) (p q : Point) : Point :=
  match p, q with
  | (x1, y1, z1), (x2, y2, z2) => (f x1 x2, f y1 y2, f z1 z2)
  end.

Definition qmax (a b : Q) : Q := if Qle_bool a b then b else a.
Definition qmin (a b : Q) : Q := if Qle_bool a b then a else b.

Definition max_coord (p : Point) (ps : list Point) : Point :=
  foldl (pmap2 qmax) p ps.
Definition min_coord (p : Point) (ps : list Point) : Point :=
  foldl (pmap2 qmin) p ps.

Definition zero_extent (extent : Point) : bool :=
  match extent with
  | (ex, ey, ez) => Qeq_bool ex 0 && Qeq_bool ey 0 && Qeq_bool ez 0
  end.

(** The spec names these two constants and leaves their values open; no
    result below depends on them. *)
Definition target_unit_span : Q := 1.
Definition epsilon : Q := 1 # 1000000000.

Definition input_points_xyz
    (surface_points : list SurfacePoint) (orientations : list Orientation)
    : list Point :=
  map sp_xyz surface_points ++ map o_xyz orientations.

(** Modelled from the spec: [transforms.py] is not among the sources.
    [from_input_points] computes the centre and the per-axis extent of
    all input coordinates, fails with DegenerateInputError when there is
    no point or all points coincide (zero extent), and otherwise takes
    translation = -centre and scale = target_unit_span / max(extent,
    epsilon) on each axis. *)
Definition from_input_points
    (surface_points : list SurfacePoint) (orientations : list Orientation)
    : Outcome t :=
  match input_points_xyz surface_points orientations with
  | [] => Raise DegenerateInputError
  | p :: ps =>
      let hi := max_coord p ps in
      let lo := min_coord p ps in
      let extent := pmap2 Qminus hi lo in
      if zero_extent extent then Raise DegenerateInputError
      else
        let center := pmap2 (fun a b => (a + b) / 2)%Q hi lo in
        Return {| position := pmap2 Qminus (0, 0, 0)%Q center;
                  scale := pmap2 (fun s e => s / qmax e epsilon)%Q
                             (target_unit_span, target_unit_span,
                              target_unit_span) extent;
                  rotation := None |}
  end.

(** Modelled from the spec: the forward affine map, translation then
    scale, over any number of points. *)
Definition apply (T : t) (points : list Point) : list Point :=
  map (fun p => pmap2 Qmult (pmap2 Qplus p (position T)) (scale T)) points.

(** Modelled from the spec: the algebraic inverse of [apply]. *)
Definition apply_inverse (T : t) (points : list Point) : list Point :=
  map (fun p => pmap2 Qminus (pmap2 Qdiv p (scale T)) (position T)) points.

End Transform.

(** ** Structural data *)

(** Object identity of a group or of an element. *)
Definition ref : Type := nat.

Module StructuralElement.
(** Modelled from the spec: [structural_element.py] is not among the
    sources.  An element has a name, its own surface points and
    orientations, and after a solve a mesh; [vertices] and [edges] are the
    two attributes the setter of [GeoModel.solutions] assigns. *)
Record t : Type := mk {
  name : string;
  surface_points : list SurfacePoint;
  orientations : list Orientation;
  vertices : option (list Point);
  edges : option (list Triple)
}.

Definition set_vertices (v : option (list Point)) (el : t) : t :=
  {| name := name el; surface_points := surface_points el;
     orientations := orientations el; vertices := v; edges := edges el |}.

Definition set_edges (ed : option (list Triple)) (el : t) : t :=
  {| name := name el; surface_points := surface_points el;
     orientations := orientations el; vertices := vertices el; edges := ed |}.
End StructuralElement.

Module LegacySolution.
(** The engine's record, with the two fields the setter fills. *)
Record t : Type := mk {
  scalar_field_matrix : list Q;
  block_matrix : list Q
}.
End LegacySolution.

Inductive StackRelationType : Type := ERODE | ONLAP | FAULT | BASEMENT.

Module StructuralGroup.
(** Modelled from the spec: [structural_group.py] is not among the
    sources.  A group has its elements in order, a relation type, and
    after a solve its [solution]. *)
Record t : Type := mk {
  name : string;
  elements : list ref;
  structural_relation : StackRelationType;
  solution : option LegacySolution.t
}.

Definition set_solution (s : LegacySolution.t) (g : t) : t :=
  {| name := name g; elements := elements g;
     structural_relation := structural_relation g; solution := Some s |}.
End StructuralGroup.

(** The objects reachable from a structural frame. *)
Record Heap : Type := mkHeap {
  group_at : gmap ref StructuralGroup.t;
  element_at : gmap ref StructuralElement.t
}.

Module StructuralFrame.
(** Modelled from the spec: [structural_frame.py] is not among the
    sources.  A frame has its groups in order and the flag [is_dirty]. *)
Record t : Type := mk {
  structural_groups : list ref;
  is_dirty : bool
}.

Definition group_elements (h : Heap) (g : ref) : list ref :=
  match group_at h !! g with
  | Some G => StructuralGroup.elements G
  | None => []
  end.

(** Modelled from the spec: [structural_frame.py] is not among the
    sources.  The elements of the frame, flattened in group order and
    then element order. *)
Definition structural_elements (h : Heap) (f : t) : list ref :=
  concat (map (group_elements h) (structural_groups f)).

Definition element_field {A : Type} (fld : StructuralElement.t -> list A)
    (h : Heap) (r : ref) : list A :=
  match element_at h !! r with
  | Some el => fld el
  | None => []
  end.

(** Modelled from the spec: the two flattened input tables, in group
    order and then element order. *)
Definition surface_points (h : Heap) (f : t) : list SurfacePoint :=
  concat (map (element_field StructuralElement.surface_points h)
              (structural_elements h f)).

(** Modelled from the spec: as [surface_points], for the orientations. *)
Definition orientations (h : Heap) (f : t) : list Orientation :=
  concat (map (element_field StructuralElement.orientations h)
              (structural_elements h f)).
End StructuralFrame.

(** ** Grid and options *)

Module RegularGrid.
(** Modelled from the spec: [grid.py] is not among the sources.  A regular
    grid has an extent and a resolution, which may be absent. *)
Record t : Type := mk {
  extent : list Q;
  resolution : option (list Z)
}.

(** Modelled from the spec: [set_regular_grid] of the missing [grid.py]
    stores the extent and the resolution it is given. *)
Definition set_regular_grid (extent : list Q) (resolution : list Z) (g : t) : t :=
  {| extent := extent; resolution := Some resolution |}.
End RegularGrid.

Module Grid.
Record t : Type := mk {
  regular_grid : RegularGrid.t
}.
End Grid.

Module InterpolationOptions.
Record t : Type := mk {
  number_octree_levels : Z
}.
End InterpolationOptions.

(** ** Engine data: solutions and interpolation input *)

(** The records of [gempy_engine], with the fields [geo_model.py] reads. *)

Module RawArrays.
Record t : Type := mk {
  scalar_field_matrix : list (list Q);
  block_matrix : list (list Q)
}.
End RawArrays.

Module DCMesh.
Record t : Type := mk {
  vertices : list Point;
  edges : list Triple
}.
End DCMesh.

Module Solutions.
Record t : Type := mk {
  raw_arrays : RawArrays.t;
  dc_meshes : option (list (option DCMesh.t))
}.
End Solutions.

Module InterpolationInput.
(** The engine's constructor is outside the repository.  It is a function
    of its four arguments and of the objects the frame refers to, so its
    result is represented by the record of what it was called with. *)
Record t : Type := mk {
  structural_frame : StructuralFrame.t;
  objects : Heap;
  grid : Grid.t;
  transform : Transform.t;
  octrees : bool
}.

Definition from_structural_frame (objects : Heap)
    (structural_frame : StructuralFrame.t) (grid : Grid.t)
    (transform : Transform.t) (octrees : bool) : t :=
  {| structural_frame := structural_frame; objects := objects;
     grid := grid; transform := transform; octrees := octrees |}.
End InterpolationInput.

(** ** GeoModel *)

Record GeoModelMeta : Type := mkGeoModelMeta {
  name : string;
  creation_date : option string;
  last_modification_date : option string;
  owner : option string
}.

Module GeoModel.
Record t : Type := mk {
  meta : GeoModelMeta;
  structural_frame : StructuralFrame.t;
  grid : Grid.t;
  transform : Transform.t;
  interpolation_options : InterpolationOptions.t;
  _interpolationInput : option InterpolationInput.t;
  _solutions : option Solutions.t
}.

Definition set_structural_frame (f : StructuralFrame.t) (m : t) : t :=
  {| meta := meta m; structural_frame := f; grid := grid m;
     transform := transform m;
     interpolation_options := interpolation_options m;
     _interpolationInput := _interpolationInput m;
     _solutions := _solutions m |}.

Definition set_grid (g : Grid.t) (m : t) : t :=
  {| meta := meta m; structural_frame := structural_frame m; grid := g;
     transform := transform m;
     interpolation_options := interpolation_options m;
     _interpolationInput := _interpolationInput m;
     _solutions := _solutions m |}.

Definition set__interpolationInput (i : option InterpolationInput.t) (m : t) : t :=
  {| meta := meta m; structural_frame := structural_frame m; grid := grid m;
     transform := transform m;
     interpolation_options := interpolation_options m;
     _interpolationInput := i;
     _solutions := _solutions m |}.

Definition set__solutions (s : option Solutions.t) (m : t) : t :=
  {| meta := meta m; structural_frame := structural_frame m; grid := grid m;
     transform := transform m;
     interpolation_options := interpolation_options m;
     _interpolationInput := _interpolationInput m;
     _solutions := s |}.
End GeoModel.

(** ** The state a method runs in *)

(** [rebuild_log] is instrumentation: it records, oldest first, every
    InterpolationInput the model has built. *)
Record World : Type := mkWorld {
  heap : Heap;
  self : GeoModel.t;
  warnings : list Warning;
  rebuild_log : list InterpolationInput.t
}.

Definition M (A : Type) : Type := World -> Outcome A * World.

Definition ret {A : Type} (a : A) : M A := fun w => (Return a, w).

Definition bind {A B : Type} (m : M A) (k : A -> M B) : M B :=
  fun w =>
    match m w with
    | (Return a, w') => k a w'
    | (Raise e, w') => (Raise e, w')
    end.

Definition lift {A : Type} (o : Outcome A) : M A := fun w => (o, w).

Definition gets {A : Type} (f : World -> A) : M A := fun w => (Return (f w), w).

Definition modify (f : World -> World) : M unit := fun w => (Return tt, f w).

Declare Scope py_scope.
Delimit Scope py_scope with py.
Notation "x <- c1 ;; c2" := (bind c1 (fun x => c2))
  (at level 100, c1 at next level, right associativity) : py_scope.
Notation "c1 ;; c2" := (bind c1 (fun _ => c2))
  (at level 100, right associativity) : py_scope.

(** [for e, x in enumerate(l): body], counting from [e]. *)
Fixpoint for_enumerate {A : Type} (body : nat -> A -> M unit)
    (e : nat) (l : list A) : M unit :=
  match l with
  | [] => ret tt
  | x :: l' => (body e x ;; for_enumerate body (S e) l')%py
  end.

Definition with_heap (f : Heap -> Heap) (w : World) : World :=
  {| heap := f (heap w); self := self w; warnings := warnings w;
     rebuild_log := rebuild_log w |}.

Definition with_self (f : GeoModel.t -> GeoModel.t) (w : World) : World :=
  {| heap := heap w; self := f (self w); warnings := warnings w;
     rebuild_log := rebuild_log w |}.

Definition alter_group (f : StructuralGroup.t -> StructuralGroup.t) (g : ref)
    (h : Heap) : Heap :=
  {| group_at := alter f g (group_at h); element_at := element_at h |}.

Definition alter_element (f : StructuralElement.t -> StructuralElement.t)
    (r : ref) (h : Heap) : Heap :=
  {| group_at := group_at h; element_at := alter f r (element_at h) |}.

(** [warnings.warn(message, category)] *)
Definition warn (msg : string) (cat : WarningCategory) : M unit :=
  modify (fun w =>
    {| heap := heap w; self := self w;
       warnings := warnings w ++ [mkWarning msg cat];
       rebuild_log := rebuild_log w |}).

(** [InterpolationInput.from_structural_frame(...)], logged. *)
Definition build_interpolation_input (octrees : bool) : M InterpolationInput.t :=
  fun w =>
    let ii := InterpolationInput.from_structural_frame (heap w)
                (GeoModel.structural_frame (self w)) (GeoModel.grid (self w))
                (GeoModel.transform (self w)) octrees in
    (Return ii,
     {| heap := heap w; self := self w; warnings := warnings w;
        rebuild_log := rebuild_log w ++ [ii] |}).

(** ** GeoModel methods *)

(** [GeoModel.__init__]: the transform is fitted from [self.surface_points]
    and [self.orientations], which are the flattened tables of the frame;
    an exception of the fit leaves the constructor. *)
Definition __init__ (h : Heap) (name : string)
    (structural_frame : StructuralFrame.t) (grid : Grid.t)
    (interpolation_options : InterpolationOptions.t) : Outcome GeoModel.t :=
  match Transform.from_input_points
          (StructuralFrame.surface_points h structural_frame)
          (StructuralFrame.orientations h structural_frame) with
  | Raise e => Raise e
  | Return T =>
      Return {| GeoModel.meta :=
                  {| name := name; creation_date := None;
                     last_modification_date := None; owner := None |};
                GeoModel.structural_frame := structural_frame;
                GeoModel.grid := grid;
                GeoModel.transform := T;
                GeoModel.interpolation_options := interpolation_options;
                GeoModel._interpolationInput := None;
                GeoModel._solutions := None |}
  end.

(** The world right after [GeoModel(name, structural_frame, grid, options)]. *)
Definition construct (h : Heap) (name : string)
    (structural_frame : StructuralFrame.t) (grid : Grid.t)
    (interpolation_options : InterpolationOptions.t) : Outcome World :=
  match __init__ h name structural_frame grid interpolation_options with
  | Raise e => Raise e
  | Return m =>
      Return {| heap := h; self := m; warnings := []; rebuild_log := [] |}
  end.

Definition frame_of (w : World) : StructuralFrame.t :=
  GeoModel.structural_frame (self w).

Definition regular_grid_of (w : World) : RegularGrid.t :=
  Grid.regular_grid (GeoModel.grid (self w)).

(** [self.structural_frame.structural_elements[:-1]] *)
Definition elements_but_last (w : World) : list ref :=
  let l := StructuralFrame.structural_elements (heap w) (frame_of w) in
  take (length l - 1)%nat l.

(** [self._solutions.dc_meshes[e] if self._solutions.dc_meshes is not None
    else None] *)
Definition dc_mesh_at (value : Solutions.t) (e : nat) : Outcome (option DCMesh.t) :=
  match Solutions.dc_meshes value with
  | Some meshes => index meshes e
  | None => Return None
  end.

Definition distribute_group (value : Solutions.t) (e : nat) (group : ref) : M unit :=
  (sf <- lift (index (RawArrays.scalar_field_matrix (Solutions.raw_arrays value)) e) ;;
   bm <- lift (index (RawArrays.block_matrix (Solutions.raw_arrays value)) e) ;;
   modify (with_heap (alter_group
     (StructuralGroup.set_solution
        {| LegacySolution.scalar_field_matrix := sf;
           LegacySolution.block_matrix := bm |}) group)))%py.

Definition distribute_mesh (value : Solutions.t) (e : nat) (element : ref) : M unit :=
  (dc_mesh <- lift (dc_mesh_at value e) ;;
   T <- gets (fun w => GeoModel.transform (self w)) ;;
   modify (with_heap (alter_element
     (StructuralElement.set_vertices
        (match dc_mesh with
         | Some m => Some (Transform.apply_inverse T (DCMesh.vertices m))
         | None => None
         end)) element)) ;;
   modify (with_heap (alter_element
     (StructuralElement.set_edges
        (match dc_mesh with
         | Some m => Some (DCMesh.edges m)
         | None => None
         end)) element)))%py.

(** The setter of [GeoModel.solutions]. *)
Definition set_solutions (value : Solutions.t) : M unit :=
  (modify (with_self (GeoModel.set__solutions (Some value))) ;;
   groups <- gets (fun w => StructuralFrame.structural_groups (frame_of w)) ;;
   for_enumerate (distribute_group value) 0 groups ;;
   elements <- gets elements_but_last ;;
   for_enumerate (distribute_mesh value) 0 elements)%py.

Definition overwrite_warning : string :=
  "You are using octrees and passing a regular grid. The resolution of the regular grid will be overwritten".

Definition set_regular_grid (extent : list Q) (resolution : list Z) : M unit :=
  modify (with_self (fun m =>
    GeoModel.set_grid
      {| Grid.regular_grid :=
           RegularGrid.set_regular_grid extent resolution
             (Grid.regular_grid (GeoModel.grid m)) |} m)).

(** The getter of [GeoModel.interpolation_input]. *)
Definition interpolation_input : M (option InterpolationInput.t) :=
  (dirty <- gets (fun w => StructuralFrame.is_dirty (frame_of w)) ;;
   (if dirty : bool then
      n_octree_lvl <- gets (fun w =>
        InterpolationOptions.number_octree_levels
          (GeoModel.interpolation_options (self w))) ;;
      let compute_octrees := 1 <? n_octree_lvl in
      (if compute_octrees then
         resolution <- gets (fun w => RegularGrid.resolution (regular_grid_of w)) ;;
         (match resolution with
          | Some _ => warn overwrite_warning UserWarning
          | None => ret tt
          end) ;;
         extent <- gets (fun w => RegularGrid.extent (regular_grid_of w)) ;;
         set_regular_grid extent
           [2 ^ n_octree_lvl; 2 ^ n_octree_lvl; 2 ^ n_octree_lvl]
       else ret tt) ;;
      ii <- build_interpolation_input compute_octrees ;;
      modify (with_self (GeoModel.set__interpolationInput (Some ii)))
    else ret tt) ;;
   gets (fun w => GeoModel._interpolationInput (self w)))%py.

(** ** A modelling session *)

(** What happens to a model after its construction: the caller reads the
    derived input, assigns solutions, or edits the structural frame it
    shares with the model.  An edit may replace every group and element
    and marks the frame dirty. *)
Inductive Action : Type :=
| ReadInterpolationInput
| AssignSolutions (value : Solutions.t)
| StructuralEdit (objects : Heap) (groups : list ref).

Definition structural_edit (objects : Heap) (groups : list ref) (w : World) : World :=
  {| heap := objects;
     self := GeoModel.set_structural_frame
               {| StructuralFrame.structural_groups := groups;
                  StructuralFrame.is_dirty := true |} (self w);
     warnings := warnings w;
     rebuild_log := rebuild_log w |}.

(** The world after an action; an exception is surfaced to the caller, who
    carries on with the world as the exception left it. *)
Definition step (w : World) (a : Action) : World :=
  match a with
  | ReadInterpolationInput => snd (interpolation_input w)
  | AssignSolutions value => snd (set_solutions value w)
  | StructuralEdit objects groups => structural_edit objects groups w
  end.

Definition run (w : World) (actions : list Action) : World :=
  foldl step w actions.

(** ** A small model: two groups, three surfaces and the basement *)

Definition pt (x y z : Z) : Point := (inject_Z x, inject_Z y, inject_Z z).

Definition demo_element (n : string) (pts : list Point) : StructuralElement.t :=
  {| StructuralElement.name := n;
     StructuralElement.surface_points := map (fun p => mkSurfacePoint p 0) pts;
     StructuralElement.orientations := [];
     StructuralElement.vertices := None;
     StructuralElement.edges := None |}.

Definition demo_group (n : string) (els : list ref) (r : StackRelationType)
    : StructuralGroup.t :=
  {| StructuralGroup.name := n; StructuralGroup.elements := els;
     StructuralGroup.structural_relation := r;
     StructuralGroup.solution := None |}.

Definition demo_heap : Heap :=
  {| group_at :=
       <[0%nat := demo_group "G1" [10; 11]%nat ERODE]>
         (<[1%nat := demo_group "G2" [12; 13]%nat BASEMENT]> ∅);
     element_at :=
       <[10%nat := demo_element "a" [pt 0 0 0; pt 1 2 3]]>
         (<[11%nat := demo_element "b" [pt 4 4 4]]>
            (<[12%nat := demo_element "c" []]>
               (<[13%nat := demo_element "basement" []]> ∅))) |}.

Definition demo_frame (dirty : bool) : StructuralFrame.t :=
  {| StructuralFrame.structural_groups := [0; 1]%nat;
     StructuralFrame.is_dirty := dirty |}.

Definition demo_grid : Grid.t :=
  {| Grid.regular_grid :=
       {| RegularGrid.extent := [0; 2000; 0; 2000; 0; 2000]%Q;
          RegularGrid.resolution := Some [10; 10; 10] |} |}.

Definition demo_options (levels : Z) : InterpolationOptions.t :=
  {| InterpolationOptions.number_octree_levels := levels |}.

Definition demo_mesh (v : list Point) (ed : list Triple) : DCMesh.t :=
  {| DCMesh.vertices := v; DCMesh.edges := ed |}.

(** Two group slices, three element meshes of which one is absent. *)
Definition demo_solutions : Solutions.t :=
  {| Solutions.raw_arrays :=
       {| RawArrays.scalar_field_matrix := [[1]; [2]]%Q;
          RawArrays.block_matrix := [[3]; [4]]%Q |};
     Solutions.dc_meshes :=
       Some [Some (demo_mesh [pt 0 0 0; pt 1 0 0; pt 0 1 0] [(0, 1, 2)]);
             None;
             Some (demo_mesh [pt 1 1 1] [])] |}.

(** Three group slices for the two groups of the model. *)
Definition surplus_solutions : Solutions.t :=
  {| Solutions.raw_arrays :=
       {| RawArrays.scalar_field_matrix := [[1]; [2]; [5]]%Q;
          RawArrays.block_matrix := [[3]; [4]; [6]]%Q |};
     Solutions.dc_meshes := None |}.

Definition world_of (o : Outcome World) (default : World) : World :=
  match o with
  | Return w => w
  | Raise _ => default
  end.

Definition blank_world : World :=
  {| heap := demo_heap;
     self := {| GeoModel.meta :=
                  {| name := ""; creation_date := None;
                     last_modification_date := None; owner := None |};
                GeoModel.structural_frame := demo_frame false;
                GeoModel.grid := demo_grid;
                GeoModel.transform :=
                  {| Transform.position := (0, 0, 0)%Q;
                     Transform.scale := (1, 1, 1)%Q;
                     Transform.rotation := None |};
                GeoModel.interpolation_options := demo_options 1;
                GeoModel._interpolationInput := None;
                GeoModel._solutions := None |};
     warnings := [];
     rebuild_log := [] |}.

(** The model of the example, constructed with a dirty frame. *)
Definition demo_world (levels : Z) : World :=
  world_of (construct demo_heap "demo" (demo_frame true) demo_grid
              (demo_options levels)) blank_world.

(** The same structure after the caller has moved the points of the
    first surface. *)
Definition moved_heap : Heap :=
  {| group_at := group_at demo_heap;
     element_at :=
       <[10%nat := demo_element "a" [pt 0 0 0; pt 100 200 300]]>
         (element_at demo_heap) |}.

(** Read, edit, read, solve, read. *)
Definition demo_session : list Action :=
  [ReadInterpolationInput;
   StructuralEdit moved_heap [0; 1]%nat;
   ReadInterpolationInput;
   AssignSolutions demo_solutions;
   ReadInterpolationInput].

(** One group with one surface, all of whose points are the same point. *)
Definition repeated_point_heap : Heap :=
  {| group_at := <[0%nat := demo_group "G1" [10]%nat ERODE]> ∅;
     element_at :=
       <[10%nat := demo_element "a" [pt 1 2 3; pt 1 2 3; pt 1 2 3]]> ∅ |}.

Definition repeated_point_frame : StructuralFrame.t :=
  {| StructuralFrame.structural_groups := [0]%nat;
     StructuralFrame.is_dirty := true |}.

(** All points of a table coincide with [p]. *)
Definition point_eq (p q : Point) : Prop :=
  match p, q with
  | (x1, y1, z1), (x2, y2, z2) => (x1 == x2 /\ y1 == y2 /\ z1 == z2)%Q
  end.

Definition coincident (p : Point) (points : list Point) : Prop :=
  Forall (point_eq p) points.

(** The references of a list are distinct objects that exist in a store. *)
Definition distinct_objects {A : Type} (store : gmap ref A) (refs : list ref) : Prop :=
  NoDup refs /\ Forall (fun r => is_Some (store !! r)) refs.

(** Number of groups of the frame; slices of a solution. *)
Definition n_groups (w : World) : nat :=
  length (StructuralFrame.structural_groups (frame_of w)).

Definition scalar_slices (value : Solutions.t) : list (list Q) :=
  RawArrays.scalar_field_matrix (Solutions.raw_arrays value).

Definition block_slices (value : Solutions.t) : list (list Q) :=
  RawArrays.block_matrix (Solutions.raw_arrays value).

(** The mesh list, when there is one, has an entry at every index below [n]. *)
Definition reaches (value : Solutions.t) (n : nat) : Prop :=
  match Solutions.dc_meshes value with
  | Some meshes => (n <= length meshes)%nat
  | None => True
  end.

(** The mesh list, when there is one, reaches every covered element. *)
Definition meshes_cover (value : Solutions.t) (w : World) : Prop :=
  reaches value (length (elements_but_last w)).

(** The slices and meshes of [value] reach every index the setter reads:
    at least one slice of each kind per group and, when there is a mesh
    list, an entry per covered element. *)
Definition reachesb (value : Solutions.t) (n : nat) : bool :=
  match Solutions.dc_meshes value with
  | Some meshes => (n <=? length meshes)%nat
  | None => true
  end.

Definition in_range (value : Solutions.t) (w : World) : bool :=
  (n_groups w <=? length (scalar_slices value))%nat
  && (n_groups w <=? length (block_slices value))%nat
  && reachesb value (length (elements_but_last w)).

(** What the mesh loop leaves on an element for the engine output [d]. *)
Definition with_mesh (T : Transform.t) (d : option DCMesh.t)
    (el : StructuralElement.t) : StructuralElement.t :=
  StructuralElement.set_edges
    (match d with Some m => Some (DCMesh.edges m) | None => None end)
    (StructuralElement.set_vertices
       (match d with
        | Some m => Some (Transform.apply_inverse T (DCMesh.vertices m))
        | None => None
        end) el).

(** ** The other properties of GeoModel *)

(** The getter of [GeoModel.solutions]. *)
Definition solutions : M (option Solutions.t) :=
  gets (fun w => GeoModel._solutions (self w)).

(** [GeoModel.surface_points]: the table of the structural frame. *)
Definition surface_points : M (list SurfacePoint) :=
  gets (fun w => StructuralFrame.surface_points (heap w) (frame_of w)).

(** [GeoModel.orientations]: the table of the structural frame. *)
Definition orientations : M (list Orientation) :=
  gets (fun w => StructuralFrame.orientations (heap w) (frame_of w)).

(** What the caller put into a group and into an element, as opposed to
    what a solve leaves there. *)
Definition group_input (G : StructuralGroup.t)
    : string * list ref * StackRelationType :=
  (StructuralGroup.name G, StructuralGroup.elements G,
   StructuralGroup.structural_relation G).

Definition element_input (el : StructuralElement.t)
    : string * list SurfacePoint * list Orientation :=
  (StructuralElement.name el, StructuralElement.surface_points el,
   StructuralElement.orientations el).

(** Two stores hold the same objects with the same input data. *)
Definition same_input_data (h1 h2 : Heap) : Prop :=
  (forall g, group_input <$> group_at h1 !! g = group_input <$> group_at h2 !! g)
  /\ (forall r, element_input <$> element_at h1 !! r =
                element_input <$> element_at h2 !! r).

(** One slice of each kind for the two groups of the example. *)
Definition short_solutions : Solutions.t :=
  {| Solutions.raw_arrays :=
       {| RawArrays.scalar_field_matrix := [[1]]%Q;
          RawArrays.block_matrix := [[3]; [4]]%Q |};
     Solutions.dc_meshes := None |}.

(** Enough slices, and one mesh for the three covered elements. *)
Definition short_mesh_solutions : Solutions.t :=
  {| Solutions.raw_arrays :=
       {| RawArrays.scalar_field_matrix := [[1]; [2]]%Q;
          RawArrays.block_matrix := [[3]; [4]]%Q |};
     Solutions.dc_meshes := Some [Some (demo_mesh [pt 1 1 1] [(0, 0, 0)])] |}.

(** The example with no resolution on its regular grid. *)
Definition bare_grid : Grid.t :=
  {| Grid.regular_grid :=
       {| RegularGrid.extent := [0; 2000; 0; 2000; 0; 2000]%Q;
          RegularGrid.resolution := None |} |}.

Definition bare_world (levels : Z) : World :=
  world_of (construct demo_heap "bare" (demo_frame true) bare_grid
              (demo_options levels)) blank_world.

(** ** Selecting the data of surfaces ([gempy/plot/vista.py]) *)

Module Vista.

(** A row of a GemPy data frame: its index label, the value of its
    [surface] column, and its other columns. *)
Record Row : Type := mk {
  label : Z;
  surface : string;
  columns : list Q
}.

Abbreviation DataFrame := (list Row).

Inductive Error : Type :=
| KeyError (key : string)
| ValueError.

Inductive Result (A : Type) : Type :=
| Ok (a : A)
| Fail (e : Error).
Arguments Ok {A} a.
Arguments Fail {A} e.

(** The argument [surfaces: Union[str, List[str]]]. *)
Inductive Surfaces : Type :=
| Name (s : string)
| Names (l : list string).

(** [surfaces == 'all']: a list is never equal to a string. *)
Definition is_all (surfaces : Surfaces) : bool :=
  match surfaces with
  | Name s => bool_decide (s = "all")
  | Names _ => false
  end.

(** A Python string is held as its UTF-8 bytes.  A byte 10xxxxxx continues
    the character begun before it. *)
Definition is_continuation (c : Ascii.ascii) : bool :=
  match c with
  | Ascii.Ascii _ _ _ _ _ _ b6 b7 => b7 && negb b6
  end.

Definition starts_with_continuation (s : string) : bool :=
  match s with
  | EmptyString => false
  | String c _ => is_continuation c
  end.

(** Iterating over a string gives its characters, each as a string of its
    own: one byte for an ASCII character, the whole byte sequence for any
    other. *)
Fixpoint characters (s : string) : list string :=
  match s with
  | EmptyString => []
  | String c s' =>
      if starts_with_continuation s' then
        match characters s' with
        | [] => [String c EmptyString]
        | ch :: chs => String c ch :: chs
        end
      else String c EmptyString :: characters s'
  end.

(** [for group in surfaces] *)
Definition iterate (surfaces : Surfaces) : list string :=
  match surfaces with
  | Name s => characters s
  | Names l => l
  end.

(** [data_df.groupby('surface').get_group(name)]: the rows of that surface,
    in their order; KeyError when there is none. *)
Definition get_group (data_df : DataFrame) (name : string) : Result DataFrame :=
  match filter (fun r => surface r = name) data_df with
  | [] => Fail (KeyError name)
  | rows => Ok rows
  end.

(** The list comprehension: the groups in the order asked for, up to the
    first exception. *)
Fixpoint get_groups (data_df : DataFrame) (names : list string)
    : Result (list DataFrame) :=
  match names with
  | [] => Ok []
  | name :: names' =>
      match get_group data_df name with
      | Fail e => Fail e
      | Ok rows =>
          match get_groups data_df names' with
          | Fail e => Fail e
          | Ok frames => Ok (rows :: frames)
          end
      end
  end.

(** [pd.concat(objs)]: ValueError for no object at all. *)
Definition pd_concat (objs : list DataFrame) : Result DataFrame :=
  match objs with
  | [] => Fail ValueError
  | _ => Ok (concat objs)
  end.

(** [GemPyToVista._select_surfaces_data] *)
Definition _select_surfaces_data (data_df : DataFrame) (surfaces : Surfaces)
    : Result DataFrame :=
  if is_all surfaces then Ok data_df
  else
    match get_groups data_df (iterate surfaces) with
    | Fail e => Fail e
    | Ok frames => pd_concat frames
    end.

End Vista.

(** Four rows on three surfaces. *)
Definition demo_frame_rows : Vista.DataFrame :=
  [Vista.mk 0 "rock1" [1; 2; 3]%Q; Vista.mk 1 "rock2" [4; 5; 6]%Q;
   Vista.mk 2 "rock1" [7; 8; 9]%Q; Vista.mk 3 "fault" [0; 0; 0]%Q].

(** A mesh for each of the three covered elements of the example. *)
Definition full_mesh_solutions : Solutions.t :=
  {| Solutions.raw_arrays :=
       {| RawArrays.scalar_field_matrix := [[1]; [2]]%Q;
          RawArrays.block_matrix := [[3]; [4]]%Q |};
     Solutions.dc_meshes :=
       Some [Some (demo_mesh [pt 9 9 9] [(0, 1, 2)]);
             Some (demo_mesh [pt 8 8 8] [(3, 4, 5)]);
             Some (demo_mesh [pt 7 7 7] [(6, 7, 8)])] |}.

(** The example after a first solve: every covered element has a mesh. *)
Definition solved_world : World :=
  snd (set_solutions full_mesh_solutions (demo_world 1)).

(** ** The affine maps in binary64 *)

Module Transform64.

Definition FPoint : Type := (spec_float * spec_float * spec_float)%type.

(** Modelled from the spec: [transforms.py] is not among the sources.  The
    translation and scale vectors of a transform, as binary64 numbers. *)
Record t : Type := mk {
  position : FPoint;
  scale : FPoint
}.

Definition fadd : spec_float -> spec_float -> spec_float := SFadd 53 1024.
Definition fsub : spec_float -> spec_float -> spec_float := SFsub 53 1024.
Definition fmul : spec_float -> spec_float -> spec_float := SFmul 53 1024.
Definition fdiv : spec_float -> spec_float -> spec_float := SFdiv 53 1024.

Definition pmap2 (f : spec_float -> spec_float -> spec_float)
    (p q : FPoint) : FPoint :=
  match p, q with
  | (x1, y1, z1), (x2, y2, z2) => (f x1 x2, f y1 y2, f z1 z2)
  end.

(** Every number of the transform is a binary64 number and the scale is
    positive on each axis. *)
Definition valid (T : t) : bool :=
  match position T, scale T with
  | (tx, ty, tz), (sx, sy, sz) =>
      forallb (valid_binary 53 1024) [tx; ty; tz; sx; sy; sz]
      && forallb (SFltb (S754_zero false)) [sx; sy; sz]
  end.

(** Modelled from the spec: the forward affine map, translation then
    scale, each operation rounded to binary64. *)
Definition apply (T : t) (points : list FPoint) : list FPoint :=
  map (fun p => pmap2 fmul (pmap2 fadd p (position T)) (scale T)) points.

(** Modelled from the spec: the inverse map, each operation rounded to
    binary64. *)
Definition apply_inverse (T : t) (points : list FPoint) : list FPoint :=
  map (fun p => pmap2 fsub (pmap2 fdiv p (scale T)) (position T)) points.

(** The value of a finite binary64 number. *)
Definition to_Q (x : spec_float) : option Q :=
  match x with
  | S754_zero _ => Some 0%Q
  | S754_finite s m e => Some (inject_Z (cond_Zopp s (Zpos m)) * 2 ^ e)%Q
  | S754_infinity _ | S754_nan => None
  end.

(** [y] is [x] within the relative tolerance [tol]. *)
Definition close (tol : Q) (x y : spec_float) : bool :=
  match to_Q x, to_Q y with
  | Some a, Some b => Qle_bool (Qabs (b - a)) (tol * Qabs a)
  | _, _ => false
  end.

Definition close_point (tol : Q) (p q : FPoint) : bool :=
  match p, q with
  | (x1, y1, z1), (x2, y2, z2) =>
      close tol x1 x2 && close tol y1 y2 && close tol z1 z2
  end.

Fixpoint within_tolerance (tol : Q) (ps qs : list FPoint) : bool :=
  match ps, qs with
  | [], [] => true
  | p :: ps', q :: qs' => close_point tol p q && within_tolerance tol ps' qs'
  | _, _ => false
  end.

End Transform64.

(** The binary64 numbers 1.0, 0.5 and -2^70. *)
Definition b64_one : spec_float := S754_finite false (2 ^ 52) (-52).
Definition b64_half : spec_float := S754_finite false (2 ^ 52) (-53).
Definition b64_far : spec_float := S754_finite true (2 ^ 52) 18.

(** A transform whose translation is far larger than the point it moves. *)
Definition far_transform : Transform64.t :=
  {| Transform64.position := (b64_far, b64_far, b64_far);
     Transform64.scale := (b64_half, b64_half, b64_half) |}.

Definition unit_point : Transform64.FPoint := (b64_one, b64_one, b64_one).

(** The transform the example model is constructed with, and two points. *)
Definition quarter_transform : Transform.t :=
  {| Transform.position := (-2, -2, -2)%Q;
     Transform.scale := (1 # 4, 1 # 4, 1 # 4)%Q;
     Transform.rotation := None |}.

(** ** Lemmas on the two loops of the setter *)

Section GroupLoop.
Variable value : Solutions.t.

Lemma distribute_group_in_range e g w sf bm :
  scalar_slices value !! e = Some sf ->
  block_slices value !! e = Some bm ->
  distribute_group value e g w =
    (Return tt,
     with_heap (alter_group
       (StructuralGroup.set_solution
          {| LegacySolution.scalar_field_matrix := sf;
             LegacySolution.block_matrix := bm |}) g) w).
Proof.
  intros Hsf Hbm. unfold distribute_group, bind, lift, index, modify.
  unfold scalar_slices, block_slices in *. by rewrite Hsf, Hbm.
Qed.

Lemma distribute_group_out_of_range e g w :
  (length (scalar_slices value) <= e)%nat \/
  (length (block_slices value) <= e)%nat ->
  distribute_group value e g w = (Raise IndexError, w).
Proof.
  intros H. unfold distribute_group, bind, lift, index.
  unfold scalar_slices, block_slices in *.
  destruct (RawArrays.scalar_field_matrix _ !! e) as [sf|] eqn:Hsf; [|done].
  destruct (RawArrays.block_matrix _ !! e) as [bm|] eqn:Hbm; [|done].
  apply lookup_lt_Some in Hsf, Hbm. lia.
Qed.

(** Enough slices: the loop ends normally, touches only the groups it
    visits, and gives the group at position [i] the slices [k + i]. *)
Lemma group_loop_returns gs : forall k w,
  (k + length gs <= length (scalar_slices value))%nat ->
  (k + length gs <= length (block_slices value))%nat ->
  exists ga,
    for_enumerate (distribute_group value) k gs w =
      (Return tt,
       with_heap (fun h => {| group_at := ga; element_at := element_at h |}) w)
    /\ (forall g, g ∉ gs -> ga !! g = group_at (heap w) !! g)
    /\ (forall g, StructuralGroup.elements <$> ga !! g =
                  StructuralGroup.elements <$> group_at (heap w) !! g)
    /\ (NoDup gs -> forall i g, gs !! i = Some g ->
          exists sf bm,
            scalar_slices value !! (k + i)%nat = Some sf /\
            block_slices value !! (k + i)%nat = Some bm /\
            ga !! g =
              StructuralGroup.set_solution
                {| LegacySolution.scalar_field_matrix := sf;
                   LegacySolution.block_matrix := bm |}
                <$> group_at (heap w) !! g).
Proof.
  induction gs as [|g gs IH]; intros k w Hsf Hbm; simpl in *.
  - exists (group_at (heap w)). repeat split; try done.
    by destruct w as [[??]???].
  - destruct (lookup_lt_is_Some_2 (scalar_slices value) k) as [sf Es]; [lia|].
    destruct (lookup_lt_is_Some_2 (block_slices value) k) as [bm Eb]; [lia|].
    unfold bind. rewrite (distribute_group_in_range _ _ _ _ _ Es Eb).
    set (w1 := with_heap _ w).
    destruct (IH (S k) w1) as (ga & Hrun & Hout & Hel & Hin); [lia|lia|].
    exists ga. rewrite Hrun. repeat split.
    + intros g' Hg'. rewrite Hout by set_solver.
      simpl. rewrite lookup_alter_ne; [done|set_solver].
    + intros g'. rewrite Hel. simpl.
      destruct (decide (g = g')) as [->|Hne].
      * rewrite lookup_alter_eq. by destruct (group_at (heap w) !! g').
      * by rewrite lookup_alter_ne.
    + intros Hnd i g' Hi. apply NoDup_cons in Hnd as [Hng Hnd].
      destruct i as [|i]; simpl in Hi.
      * injection Hi as <-. exists sf, bm.
        rewrite Nat.add_0_r. repeat split; [done..|].
        rewrite Hout by done. simpl. by rewrite lookup_alter_eq.
      * destruct (Hin Hnd i g' Hi) as (sf' & bm' & Es' & Eb' & Hg').
        exists sf', bm'. replace (k + S i)%nat with (S k + i)%nat by lia.
        repeat split; [done..|]. rewrite Hg'. simpl.
        rewrite lookup_alter_ne; [done|].
        intros ->. apply Hng. by eapply list_elem_of_lookup_2.
Qed.

(** Too few slices: the loop raises IndexError. *)
Lemma group_loop_raises gs : forall k w,
  (k <= length (scalar_slices value))%nat ->
  (k <= length (block_slices value))%nat ->
  (length (scalar_slices value) < k + length gs)%nat \/
  (length (block_slices value) < k + length gs)%nat ->
  fst (for_enumerate (distribute_group value) k gs w) = Raise IndexError.
Proof.
  induction gs as [|g gs IH]; intros k w Hk1 Hk2 Hlt; simpl in *; [lia|].
  unfold bind.
  destruct (decide (k < length (scalar_slices value)
                    ∧ k < length (block_slices value))%nat) as [[H1 H2]|Hno].
  - destruct (lookup_lt_is_Some_2 _ _ H1) as [sf Es].
    destruct (lookup_lt_is_Some_2 _ _ H2) as [bm Eb].
    rewrite (distribute_group_in_range _ _ _ _ _ Es Eb).
    apply IH; lia.
  - rewrite distribute_group_out_of_range; [done|lia].
Qed.
End GroupLoop.

Section MeshLoop.
Variable value : Solutions.t.

Lemma dc_mesh_at_in_range e :
  reaches value (S e) -> exists d, dc_mesh_at value e = Return d.
Proof.
  unfold reaches, dc_mesh_at, index.
  destruct (Solutions.dc_meshes value) as [meshes|]; [|by eexists].
  intros H. destruct (lookup_lt_is_Some_2 meshes e) as [d Hd]; [lia|].
  rewrite Hd. by eexists.
Qed.

Lemma distribute_mesh_in_range e r w d :
  dc_mesh_at value e = Return d ->
  distribute_mesh value e r w =
    (Return tt,
     with_heap (alter_element (with_mesh (GeoModel.transform (self w)) d) r) w).
Proof.
  intros Hd. unfold distribute_mesh, bind, lift, gets, modify. rewrite Hd.
  simpl. f_equal. unfold with_heap, alter_element, with_mesh. simpl.
  do 2 f_equal. apply map_eq. intros j.
  destruct (decide (r = j)) as [->|Hne].
  - rewrite !lookup_alter_eq. by destruct (element_at (heap w) !! j).
  - by rewrite !lookup_alter_ne.
Qed.

Lemma distribute_mesh_out_of_range e r w meshes :
  Solutions.dc_meshes value = Some meshes ->
  (length meshes <= e)%nat ->
  distribute_mesh value e r w = (Raise IndexError, w).
Proof.
  intros Hm Hle. unfold distribute_mesh, bind, lift, dc_mesh_at, index.
  rewrite Hm. by rewrite (lookup_ge_None_2 meshes e Hle).
Qed.

(** The mesh list reaches every element: the loop ends normally, touches
    only the elements it visits, and leaves on the element at position
    [i] the engine output at index [k + i]. *)
Lemma mesh_loop_returns els : forall k w,
  reaches value (k + length els) ->
  exists ea,
    for_enumerate (distribute_mesh value) k els w =
      (Return tt,
       with_heap (fun h => {| group_at := group_at h; element_at := ea |}) w)
    /\ (forall r, r ∉ els -> ea !! r = element_at (heap w) !! r)
    /\ (NoDup els -> forall i r, els !! i = Some r ->
          exists d,
            dc_mesh_at value (k + i) = Return d /\
            ea !! r =
              with_mesh (GeoModel.transform (self w)) d
                <$> element_at (heap w) !! r).
Proof.
  induction els as [|r els IH]; intros k w Hr; simpl in *.
  - exists (element_at (heap w)). repeat split; try done.
    by destruct w as [[??]???].
  - destruct (dc_mesh_at_in_range k) as [d Hd].
    { unfold reaches in *. destruct (Solutions.dc_meshes value); [lia|done]. }
    unfold bind. rewrite (distribute_mesh_in_range _ _ _ _ Hd).
    set (w1 := with_heap _ w).
    destruct (IH (S k) w1) as (ea & Hrun & Hout & Hin).
    { unfold reaches in *. destruct (Solutions.dc_meshes value); [lia|done]. }
    exists ea. rewrite Hrun. repeat split.
    + intros r' Hr'. rewrite Hout by set_solver.
      simpl. rewrite lookup_alter_ne; [done|set_solver].
    + intros Hnd i r' Hi. apply NoDup_cons in Hnd as [Hnr Hnd].
      destruct i as [|i]; simpl in Hi.
      * injection Hi as <-. exists d. rewrite Nat.add_0_r. split; [done|].
        rewrite Hout by done. simpl. by rewrite lookup_alter_eq.
      * destruct (Hin Hnd i r' Hi) as (d' & Hd' & Hr').
        exists d'. replace (k + S i)%nat with (S k + i)%nat by lia.
        split; [done|]. rewrite Hr'. simpl.
        rewrite lookup_alter_ne; [done|].
        intros ->. apply Hnr. by eapply list_elem_of_lookup_2.
Qed.

(** The mesh list is shorter than the loop: IndexError. *)
Lemma mesh_loop_raises els meshes : forall k w,
  Solutions.dc_meshes value = Some meshes ->
  (k <= length meshes)%nat ->
  (length meshes < k + length els)%nat ->
  fst (for_enumerate (distribute_mesh value) k els w) = Raise IndexError.
Proof.
  induction els as [|r els IH]; intros k w Hm Hk Hlt; simpl in *; [lia|].
  unfold bind.
  destruct (decide (k < length meshes)%nat) as [Hin|Hout].
  - destruct (dc_mesh_at_in_range k) as [d Hd].
    { unfold reaches. rewrite Hm. lia. }
    rewrite (distribute_mesh_in_range _ _ _ _ Hd).
    apply IH; [done|lia|lia].
  - rewrite (distribute_mesh_out_of_range _ _ _ _ Hm); [done|lia].
Qed.
End MeshLoop.

(** ** The setter as a whole *)

Lemma set_solutions_unfold value w :
  set_solutions value w =
    let w1 := with_self (GeoModel.set__solutions (Some value)) w in
    match for_enumerate (distribute_group value) 0
            (StructuralFrame.structural_groups (frame_of w)) w1 with
    | (Return _, w2) =>
        for_enumerate (distribute_mesh value) 0 (elements_but_last w2) w2
    | (Raise e, w2) => (Raise e, w2)
    end.
Proof. reflexivity. Qed.

Lemma reachesb_spec value n : reachesb value n = true <-> reaches value n.
Proof.
  unfold reachesb, reaches. destruct (Solutions.dc_meshes value); [|done].
  apply Nat.leb_le.
Qed.

(** The mesh loop never writes a group, whatever its outcome. *)
Lemma mesh_loop_keeps_groups value els : forall k w,
  group_at (heap (snd (for_enumerate (distribute_mesh value) k els w))) =
  group_at (heap w).
Proof.
  induction els as [|r els IH]; intros k w; simpl; [done|].
  unfold bind. destruct (dc_mesh_at value k) as [d|e] eqn:Hd.
  - rewrite (distribute_mesh_in_range _ _ _ _ _ Hd). by rewrite IH.
  - unfold distribute_mesh, bind, lift. by rewrite Hd.
Qed.

(** Group solutions do not enter the flattened element list. *)
Lemma structural_elements_ext h1 h2 f :
  (forall g, StructuralGroup.elements <$> group_at h1 !! g =
             StructuralGroup.elements <$> group_at h2 !! g) ->
  StructuralFrame.structural_elements h1 f =
  StructuralFrame.structural_elements h2 f.
Proof.
  intros H. unfold StructuralFrame.structural_elements. f_equal.
  apply map_ext. intros g. unfold StructuralFrame.group_elements.
  specialize (H g).
  destruct (group_at h1 !! g), (group_at h2 !! g); simpl in H; congruence.
Qed.

(** Everything in range: the setter returns, and both loops have had their
    effect on the objects of the frame. *)
Lemma set_solutions_returns value w :
  (n_groups w <= length (scalar_slices value))%nat ->
  (n_groups w <= length (block_slices value))%nat ->
  meshes_cover value w ->
  exists ga ea,
    set_solutions value w =
      (Return tt,
       {| heap := {| group_at := ga; element_at := ea |};
          self := GeoModel.set__solutions (Some value) (self w);
          warnings := warnings w;
          rebuild_log := rebuild_log w |})
    /\ (forall r, r ∉ elements_but_last w -> ea !! r = element_at (heap w) !! r)
    /\ (NoDup (elements_but_last w) ->
        forall i r, elements_but_last w !! i = Some r ->
          exists d,
            dc_mesh_at value i = Return d /\
            ea !! r =
              with_mesh (GeoModel.transform (self w)) d
                <$> element_at (heap w) !! r).
Proof.
  intros Hsf Hbm Hcov. rewrite set_solutions_unfold. cbv zeta.
  set (w1 := with_self _ w).
  destruct (group_loop_returns value
              (StructuralFrame.structural_groups (frame_of w)) 0 w1)
    as (ga & Hrun & _ & Hel & _); [done..|].
  rewrite Hrun. set (w2 := with_heap _ w1).
  assert (Hebl : elements_but_last w2 = elements_but_last w).
  { unfold elements_but_last.
    replace (StructuralFrame.structural_elements (heap w2) (frame_of w2))
      with (StructuralFrame.structural_elements (heap w) (frame_of w)); [done|].
    symmetry. apply structural_elements_ext. intros g. apply Hel. }
  rewrite Hebl.
  destruct (mesh_loop_returns value (elements_but_last w) 0 w2)
    as (ea & Hrun2 & Hout & Hin); [done|].
  exists ga, ea. rewrite Hrun2. repeat split; done.
Qed.

(** Enough group slices: whatever the mesh loop does, each group of the
    frame holds the slices of its own index. *)
Lemma set_solutions_groups value w :
  (n_groups w <= length (scalar_slices value))%nat ->
  (n_groups w <= length (block_slices value))%nat ->
  let ga := group_at (heap (snd (set_solutions value w))) in
  (forall g, g ∉ StructuralFrame.structural_groups (frame_of w) ->
     ga !! g = group_at (heap w) !! g)
  /\ (NoDup (StructuralFrame.structural_groups (frame_of w)) ->
      forall i g, StructuralFrame.structural_groups (frame_of w) !! i = Some g ->
        exists sf bm,
          scalar_slices value !! i = Some sf /\
          block_slices value !! i = Some bm /\
          ga !! g =
            StructuralGroup.set_solution
              {| LegacySolution.scalar_field_matrix := sf;
                 LegacySolution.block_matrix := bm |}
              <$> group_at (heap w) !! g).
Proof.
  intros Hsf Hbm. rewrite set_solutions_unfold. cbv zeta.
  set (w1 := with_self _ w).
  destruct (group_loop_returns value
              (StructuralFrame.structural_groups (frame_of w)) 0 w1)
    as (ga & Hrun & Hout & _ & Hin); [done..|].
  rewrite Hrun, mesh_loop_keeps_groups. simpl. split; done.
Qed.

Lemma NoDup_but_last (l : list ref) :
  NoDup l -> NoDup (take (length l - 1)%nat l).
Proof. intros Hnd. eapply sublist_NoDup; [done|apply sublist_take]. Qed.

(** A list without repetition: its last entry is not among the others. *)
Lemma last_not_among_others (l : list ref) (r : ref) :
  NoDup l -> last l = Some r -> r ∉ take (length l - 1)%nat l.
Proof.
  intros Hnd Hlast. apply last_Some in Hlast as [l' ->].
  rewrite length_app. simpl.
  replace (length l' + 1 - 1)%nat with (length l') by lia.
  rewrite take_app_length. apply NoDup_app in Hnd as (_ & Hdisj & _).
  intros Hin. apply (Hdisj r Hin). set_solver.
Qed.

(** ** Solution distribution *)

(** C2. Assigning a Solutions object with at least one scalar-field slice
    and one block slice per group gives the group at index [e] of the frame
    exactly the slices at index [e] (as its LegacySolution), and leaves every
    group outside the frame as it was.  The groups of the frame are distinct
    objects of the store. *)
Theorem solutions_groups_receive_own_slices (value : Solutions.t) (w : World) :
  distinct_objects (group_at (heap w))
    (StructuralFrame.structural_groups (frame_of w)) ->
  (n_groups w <= length (scalar_slices value))%nat ->
  (n_groups w <= length (block_slices value))%nat ->
  (forall e g,
     StructuralFrame.structural_groups (frame_of w) !! e = Some g ->
     exists G sf bm,
       group_at (heap (snd (set_solutions value w))) !! g = Some G /\
       scalar_slices value !! e = Some sf /\
       block_slices value !! e = Some bm /\
       StructuralGroup.solution G =
         Some {| LegacySolution.scalar_field_matrix := sf;
                 LegacySolution.block_matrix := bm |})
  /\ (forall g,
        g ∉ StructuralFrame.structural_groups (frame_of w) ->
        group_at (heap (snd (set_solutions value w))) !! g =
        group_at (heap w) !! g).
Proof.
  intros [Hnd Hex] Hsf Hbm.
  destruct (set_solutions_groups value w Hsf Hbm) as [Hout Hin].
  split; [|exact Hout].
  intros e g He. destruct (Hin Hnd e g He) as (sf & bm & Es & Eb & Hg).
  rewrite Forall_forall in Hex.
  destruct (Hex g) as [G0 HG0]; [by eapply list_elem_of_lookup_2|].
  rewrite HG0 in Hg. simpl in Hg. eauto 10.
Qed.

(** C4. When every index the setter reads is in range, an element at a
    flattened index [e] before the last whose engine output at [e] is a mesh
    [m] ends with vertices [apply_inverse] of the model's transform on the
    vertices of [m], and with the edges of [m] as they are.  The elements of
    the frame are distinct objects of the store. *)
Theorem solutions_mesh_vertices_inverse_transformed
    (value : Solutions.t) (w : World) (e : nat) (r : ref) (m : DCMesh.t) :
  distinct_objects (element_at (heap w))
    (StructuralFrame.structural_elements (heap w) (frame_of w)) ->
  in_range value w = true ->
  StructuralFrame.structural_elements (heap w) (frame_of w) !! e = Some r ->
  (S e < length (StructuralFrame.structural_elements (heap w) (frame_of w)))%nat ->
  dc_mesh_at value e = Return (Some m) ->
  exists el,
    element_at (heap (snd (set_solutions value w))) !! r = Some el /\
    StructuralElement.vertices el =
      Some (Transform.apply_inverse (GeoModel.transform (self w))
              (DCMesh.vertices m)) /\
    StructuralElement.edges el = Some (DCMesh.edges m).
Proof.
  intros [Hnd Hex] Hr He Hlt Hmesh. unfold in_range in Hr.
  apply andb_prop in Hr as [Hr Hm]. apply andb_prop in Hr as [Hsf Hbm].
  apply Nat.leb_le in Hsf, Hbm. apply reachesb_spec in Hm.
  destruct (set_solutions_returns value w Hsf Hbm Hm)
    as (ga & ea & Hrun & _ & Hin).
  rewrite Hrun. simpl.
  assert (Hebl : elements_but_last w !! e = Some r).
  { unfold elements_but_last. rewrite lookup_take_lt; [done|lia]. }
  destruct (Hin (NoDup_but_last _ Hnd) e r Hebl) as (d & Hd & Hel).
  rewrite Hmesh in Hd. injection Hd as <-.
  rewrite Forall_forall in Hex.
  destruct (Hex r) as [el0 Hel0]; [by eapply list_elem_of_lookup_2|].
  rewrite Hel0 in Hel. simpl in Hel. eauto.
Qed.

(** C6, as the code has it.  The setter has no check of its own and no
    handler: it raises IndexError exactly when an index it reads is out of
    range, that is when the frame has more groups than there are
    scalar-field slices or block slices, or the mesh list is shorter than
    the covered elements; otherwise it returns, and slices beyond the
    number of groups are not looked at. *)
Theorem set_solutions_raises_iff_out_of_range (value : Solutions.t) (w : World) :
  fst (set_solutions value w) =
    if in_range value w then Return tt else Raise IndexError.
Proof.
  destruct (in_range value w) eqn:Hr; unfold in_range in Hr.
  - apply andb_prop in Hr as [Hr Hm]. apply andb_prop in Hr as [Hsf Hbm].
    apply Nat.leb_le in Hsf, Hbm. apply reachesb_spec in Hm.
    destruct (set_solutions_returns value w Hsf Hbm Hm)
      as (ga & ea & Hrun & _). by rewrite Hrun.
  - rewrite set_solutions_unfold. cbv zeta. set (w1 := with_self _ w).
    destruct (decide (n_groups w <= length (scalar_slices value)
                      ∧ n_groups w <= length (block_slices value))%nat)
      as [[Hsf Hbm]|Hno].
    + destruct (group_loop_returns value
                  (StructuralFrame.structural_groups (frame_of w)) 0 w1)
        as (ga & Hrun & _ & Hel & _); [done..|].
      rewrite Hrun. set (w2 := with_heap _ w1).
      assert (Hebl : elements_but_last w2 = elements_but_last w).
      { unfold elements_but_last.
        replace (StructuralFrame.structural_elements (heap w2) (frame_of w2))
          with (StructuralFrame.structural_elements (heap w) (frame_of w));
          [done|].
        symmetry. apply structural_elements_ext. intros g. apply Hel. }
      rewrite Hebl.
      apply Nat.leb_le in Hsf, Hbm. rewrite Hsf, Hbm in Hr. simpl in Hr.
      unfold reachesb in Hr.
      destruct (Solutions.dc_meshes value) as [meshes|] eqn:Hm; [|done].
      apply Nat.leb_gt in Hr.
      apply (mesh_loop_raises value _ meshes); [done|lia|lia].
    + rewrite (surjective_pairing (for_enumerate _ _ _ _)).
      rewrite (group_loop_raises value); [done|lia|lia|].
      unfold n_groups in Hno. lia.
Qed.

Lemma demo_groups_distinct :
  distinct_objects (group_at (heap (demo_world 1)))
    (StructuralFrame.structural_groups (frame_of (demo_world 1))).
Proof.
  split.
  - apply (bool_decide_unpack _). vm_compute. exact I.
  - vm_compute. repeat constructor; eexists; reflexivity.
Defined.

Lemma demo_elements_distinct :
  distinct_objects (element_at (heap (demo_world 1)))
    (StructuralFrame.structural_elements (heap (demo_world 1))
       (frame_of (demo_world 1))).
Proof.
  split.
  - apply (bool_decide_unpack _). vm_compute. exact I.
  - vm_compute. repeat constructor; eexists; reflexivity.
Defined.

(** In the example, the second group ends with the second slices. *)
Lemma solutions_groups_receive_own_slices_witness :
  exists G,
    group_at (heap (snd (set_solutions demo_solutions (demo_world 1)))) !! 1%nat
      = Some G /\
    StructuralGroup.solution G =
      Some {| LegacySolution.scalar_field_matrix := [2]%Q;
              LegacySolution.block_matrix := [4]%Q |}.
Proof.
  destruct (solutions_groups_receive_own_slices demo_solutions (demo_world 1)
              demo_groups_distinct) as [H _].
  - vm_compute. lia.
  - vm_compute. lia.
  - destruct (H 1%nat 1%nat eq_refl) as (G & sf & bm & HG & Hs & Hb & Hsol).
    exists G. split; [exact HG|].
    vm_compute in Hs, Hb. injection Hs as <-. injection Hb as <-. exact Hsol.
Defined.

(** In the example, the third surface ends with the mesh of index 2, its
    vertex moved back by the transform of the model. *)
Lemma solutions_mesh_vertices_inverse_transformed_witness :
  exists el,
    element_at (heap (snd (set_solutions demo_solutions (demo_world 1)))) !! 12%nat
      = Some el /\
    StructuralElement.vertices el =
      Some (Transform.apply_inverse (GeoModel.transform (self (demo_world 1)))
              [pt 1 1 1]) /\
    StructuralElement.edges el = Some [].
Proof.
  apply (solutions_mesh_vertices_inverse_transformed demo_solutions
           (demo_world 1) 2%nat 12%nat (demo_mesh [pt 1 1 1] [])
           demo_elements_distinct).
  - vm_compute. reflexivity.
  - vm_compute. reflexivity.
  - vm_compute. lia.
  - vm_compute. reflexivity.
Defined.

(** Three slices for two groups: the numbers differ and the assignment
    returns normally. *)
Lemma surplus_slices_accepted :
  n_groups (demo_world 1) = 2%nat
  /\ length (scalar_slices surplus_solutions) = 3%nat
  /\ length (block_slices surplus_solutions) = 3%nat
  /\ fst (set_solutions surplus_solutions (demo_world 1)) = Return tt.
Proof. vm_compute. repeat split. Qed.

(** ** The derived-input getter *)

Ltac run_getter :=
  unfold interpolation_input, bind, gets, modify, ret, warn, set_regular_grid,
    build_interpolation_input, with_self.

Lemma read_clean w :
  StructuralFrame.is_dirty (frame_of w) = false ->
  interpolation_input w = (Return (GeoModel._interpolationInput (self w)), w).
Proof. intros Hd. run_getter. by rewrite Hd. Qed.

(** A dirty read without octrees: one rebuild, nothing else. *)
Lemma read_dirty_flat w :
  StructuralFrame.is_dirty (frame_of w) = true ->
  InterpolationOptions.number_octree_levels
    (GeoModel.interpolation_options (self w)) <= 1 ->
  let ii := InterpolationInput.from_structural_frame (heap w) (frame_of w)
              (GeoModel.grid (self w)) (GeoModel.transform (self w)) false in
  interpolation_input w =
    (Return (Some ii),
     {| heap := heap w;
        self := GeoModel.set__interpolationInput (Some ii) (self w);
        warnings := warnings w;
        rebuild_log := rebuild_log w ++ [ii] |}).
Proof.
  intros Hd Hn. run_getter. rewrite Hd.
  destruct (Z.ltb_spec 1 (InterpolationOptions.number_octree_levels
                            (GeoModel.interpolation_options (self w))));
    [lia|done].
Qed.

(** A dirty read with octrees: the resolution is overwritten first, with a
    warning when there was one. *)
Lemma read_dirty_octrees w :
  StructuralFrame.is_dirty (frame_of w) = true ->
  1 < InterpolationOptions.number_octree_levels
        (GeoModel.interpolation_options (self w)) ->
  let n := InterpolationOptions.number_octree_levels
             (GeoModel.interpolation_options (self w)) in
  let g := {| Grid.regular_grid :=
                {| RegularGrid.extent := RegularGrid.extent (regular_grid_of w);
                   RegularGrid.resolution := Some [2 ^ n; 2 ^ n; 2 ^ n] |} |} in
  let ii := InterpolationInput.from_structural_frame (heap w) (frame_of w)
              g (GeoModel.transform (self w)) true in
  interpolation_input w =
    (Return (Some ii),
     {| heap := heap w;
        self := GeoModel.set__interpolationInput (Some ii)
                  (GeoModel.set_grid g (self w));
        warnings :=
          match RegularGrid.resolution (regular_grid_of w) with
          | Some _ => warnings w ++ [mkWarning overwrite_warning UserWarning]
          | None => warnings w
          end;
        rebuild_log := rebuild_log w ++ [ii] |}).
Proof.
  intros Hd Hn. run_getter. rewrite Hd.
  destruct (Z.ltb_spec 1 (InterpolationOptions.number_octree_levels
                            (GeoModel.interpolation_options (self w))));
    [|lia].
  by destruct (RegularGrid.resolution (regular_grid_of w)).
Qed.

(** Every dirty read builds a new input from the frame, the grid as the
    read leaves it and the transform of the model, caches and logs it, and
    writes neither the frame nor the transform. *)
Lemma read_dirty w :
  StructuralFrame.is_dirty (frame_of w) = true ->
  exists ii,
    fst (interpolation_input w) = Return (Some ii)
    /\ ii = InterpolationInput.from_structural_frame (heap w) (frame_of w)
              (GeoModel.grid (self (snd (interpolation_input w))))
              (GeoModel.transform (self w))
              (1 <? InterpolationOptions.number_octree_levels
                      (GeoModel.interpolation_options (self w)))
    /\ GeoModel._interpolationInput (self (snd (interpolation_input w))) = Some ii
    /\ rebuild_log (snd (interpolation_input w)) = rebuild_log w ++ [ii]
    /\ frame_of (snd (interpolation_input w)) = frame_of w
    /\ GeoModel.transform (self (snd (interpolation_input w))) =
       GeoModel.transform (self w).
Proof.
  intros Hd.
  destruct (Z.ltb_spec 1 (InterpolationOptions.number_octree_levels
                            (GeoModel.interpolation_options (self w))))
    as [Hn|Hn].
  - rewrite (read_dirty_octrees w Hd Hn). cbv zeta. eexists. by repeat split.
  - rewrite (read_dirty_flat w Hd Hn). cbv zeta. eexists. by repeat split.
Qed.

Lemma read_keeps_dirty_flag w :
  frame_of (snd (interpolation_input w)) = frame_of w.
Proof.
  destruct (StructuralFrame.is_dirty (frame_of w)) eqn:Hd.
  - by destruct (read_dirty w Hd) as (ii & _ & _ & _ & _ & Hf & _).
  - by rewrite (read_clean w Hd).
Qed.

Lemma reads_rebuild_log w : forall k,
  length (rebuild_log (run w (repeat ReadInterpolationInput k))) =
  (length (rebuild_log w) +
   (if StructuralFrame.is_dirty (frame_of w) then k else 0))%nat.
Proof.
  intros k. revert w. induction k as [|k IH]; intros w; simpl.
  - destruct (StructuralFrame.is_dirty (frame_of w)); lia.
  - unfold run in IH. rewrite IH, read_keeps_dirty_flag.
    destruct (StructuralFrame.is_dirty (frame_of w)) eqn:Hd.
    + destruct (read_dirty w Hd) as (ii & _ & _ & _ & Hlog & _).
      rewrite Hlog, length_app. simpl. lia.
    + rewrite (read_clean w Hd). simpl. lia.
Qed.

(** C1, as the code has it.  A read of a clean model returns the cached
    input and changes nothing.  A read of a dirty model builds a new input
    from the current frame, grid and transform, caches and returns it, and
    leaves the frame with its flag as it was; so [k] reads in a row build
    [k] inputs on a dirty model and none on a clean one. *)
Theorem interpolation_input_rebuilds_while_dirty (w : World) :
  (StructuralFrame.is_dirty (frame_of w) = false ->
   interpolation_input w = (Return (GeoModel._interpolationInput (self w)), w))
  /\ (StructuralFrame.is_dirty (frame_of w) = true ->
      exists ii,
        fst (interpolation_input w) = Return (Some ii)
        /\ ii = InterpolationInput.from_structural_frame (heap w) (frame_of w)
                  (GeoModel.grid (self (snd (interpolation_input w))))
                  (GeoModel.transform (self w))
                  (1 <? InterpolationOptions.number_octree_levels
                          (GeoModel.interpolation_options (self w)))
        /\ GeoModel._interpolationInput (self (snd (interpolation_input w)))
           = Some ii
        /\ rebuild_log (snd (interpolation_input w)) = rebuild_log w ++ [ii]
        /\ frame_of (snd (interpolation_input w)) = frame_of w)
  /\ (forall k,
        length (rebuild_log (run w (repeat ReadInterpolationInput k))) =
        (length (rebuild_log w) +
         (if StructuralFrame.is_dirty (frame_of w) then k else 0))%nat).
Proof.
  split; [apply read_clean|]. split; [|apply reads_rebuild_log].
  intros Hd. destruct (read_dirty w Hd) as (ii & H1 & H2 & H3 & H4 & H5 & _).
  exists ii. by repeat split.
Qed.

(** In the example a dirty read returns a new input and leaves the flag set. *)
Lemma interpolation_input_rebuilds_while_dirty_witness :
  exists ii,
    fst (interpolation_input (demo_world 1)) = Return (Some ii)
    /\ rebuild_log (snd (interpolation_input (demo_world 1))) = [ii]
    /\ StructuralFrame.is_dirty
         (frame_of (snd (interpolation_input (demo_world 1)))) = true.
Proof.
  destruct (interpolation_input_rebuilds_while_dirty (demo_world 1))
    as (_ & Hdirty & _).
  destruct Hdirty as (ii & Hret & _ & _ & Hlog & Hframe).
  - vm_compute. reflexivity.
  - exists ii. split; [exact Hret|]. split; [exact Hlog|].
    rewrite Hframe. vm_compute. reflexivity.
Defined.

(** Three reads of the dirty example model, with no edit in between: the
    flag is still set after the first read and three inputs were built. *)
Lemma dirty_reads_rebuild_each_time :
  StructuralFrame.is_dirty (frame_of (demo_world 1)) = true
  /\ StructuralFrame.is_dirty
       (frame_of (snd (interpolation_input (demo_world 1)))) = true
  /\ length (rebuild_log
       (run (demo_world 1)
          [ReadInterpolationInput; ReadInterpolationInput;
           ReadInterpolationInput])) = 3%nat.
Proof. vm_compute. repeat split. Qed.

(** C5. A dirty read of a model with more than one octree level and a
    resolution on its regular grid returns normally, records one
    UserWarning and leaves the resolution at 2 ^ levels on each of the
    three axes. *)
Theorem octree_read_overwrites_resolution (w : World) (r : list Z) :
  StructuralFrame.is_dirty (frame_of w) = true ->
  1 < InterpolationOptions.number_octree_levels
        (GeoModel.interpolation_options (self w)) ->
  RegularGrid.resolution (regular_grid_of w) = Some r ->
  let n := InterpolationOptions.number_octree_levels
             (GeoModel.interpolation_options (self w)) in
  (exists ii, fst (interpolation_input w) = Return (Some ii))
  /\ RegularGrid.resolution (regular_grid_of (snd (interpolation_input w))) =
     Some [2 ^ n; 2 ^ n; 2 ^ n]
  /\ warnings (snd (interpolation_input w)) =
     warnings w ++ [mkWarning overwrite_warning UserWarning].
Proof.
  intros Hd Hn Hr. rewrite (read_dirty_octrees w Hd Hn). cbv zeta. simpl.
  rewrite Hr. split; [by eexists|done].
Qed.

(** Three octree levels over a resolution of [10, 10, 10]: the first read
    leaves [8, 8, 8] and one warning. *)
Lemma octree_read_overwrites_resolution_witness :
  RegularGrid.resolution (regular_grid_of (demo_world 3)) = Some [10; 10; 10]
  /\ RegularGrid.resolution
       (regular_grid_of (snd (interpolation_input (demo_world 3)))) =
     Some [8; 8; 8]
  /\ warnings (snd (interpolation_input (demo_world 3))) =
     [mkWarning overwrite_warning UserWarning].
Proof.
  split; [vm_compute; reflexivity|].
  destruct (octree_read_overwrites_resolution (demo_world 3) [10; 10; 10])
    as (_ & Hres & Hwarn).
  - vm_compute. reflexivity.
  - vm_compute. reflexivity.
  - vm_compute. reflexivity.
  - split; [exact Hres | exact Hwarn].
Defined.

(** C10. With at most one octree level, a read, dirty or not, leaves the
    resolution and the extent of the regular grid and the recorded warnings
    as they were, touches no group or element, and changes no field of the
    model other than the cached input. *)
Theorem flat_read_only_writes_cache (w : World) :
  InterpolationOptions.number_octree_levels
    (GeoModel.interpolation_options (self w)) <= 1 ->
  RegularGrid.resolution (regular_grid_of (snd (interpolation_input w))) =
    RegularGrid.resolution (regular_grid_of w)
  /\ RegularGrid.extent (regular_grid_of (snd (interpolation_input w))) =
     RegularGrid.extent (regular_grid_of w)
  /\ warnings (snd (interpolation_input w)) = warnings w
  /\ heap (snd (interpolation_input w)) = heap w
  /\ self (snd (interpolation_input w)) =
     GeoModel.set__interpolationInput
       (GeoModel._interpolationInput (self (snd (interpolation_input w))))
       (self w).
Proof.
  intros Hn. destruct (StructuralFrame.is_dirty (frame_of w)) eqn:Hd.
  - rewrite (read_dirty_flat w Hd Hn). cbv zeta. by repeat split.
  - rewrite (read_clean w Hd). simpl. repeat split; try done.
    by destruct (self w).
Qed.

Lemma flat_read_only_writes_cache_witness :
  RegularGrid.resolution
    (regular_grid_of (snd (interpolation_input (demo_world 1)))) =
    Some [10; 10; 10]
  /\ warnings (snd (interpolation_input (demo_world 1))) = [].
Proof.
  destruct (flat_read_only_writes_cache (demo_world 1))
    as (Hres & _ & Hwarn & _).
  - vm_compute. discriminate.
  - rewrite Hres, Hwarn. vm_compute. split; reflexivity.
Defined.

(** ** The transform over a session *)

Lemma for_enumerate_heap_only {A : Type} (body : nat -> A -> M unit) :
  (forall e x w, exists h, snd (body e x w) = with_heap (fun _ => h) w) ->
  forall l k w,
    exists h, snd (for_enumerate body k l w) = with_heap (fun _ => h) w.
Proof.
  intros Hbody. induction l as [|x l IH]; intros k w; simpl.
  - exists (heap w). by destruct w.
  - unfold bind. destruct (Hbody k x w) as [h1 Hh1].
    destruct (body k x w) as [[u|e] w1]; simpl in Hh1; subst w1.
    + destruct (IH (S k) (with_heap (fun _ => h1) w)) as [h Hh].
      exists h. by rewrite Hh.
    + by exists h1.
Qed.

Lemma distribute_group_heap_only value e g w :
  exists h, snd (distribute_group value e g w) = with_heap (fun _ => h) w.
Proof.
  unfold distribute_group, bind, lift, index, modify.
  destruct (RawArrays.scalar_field_matrix _ !! e);
    [|exists (heap w); by destruct w].
  destruct (RawArrays.block_matrix _ !! e);
    [|exists (heap w); by destruct w].
  by eexists.
Qed.

Lemma distribute_mesh_heap_only value e r w :
  exists h, snd (distribute_mesh value e r w) = with_heap (fun _ => h) w.
Proof.
  unfold distribute_mesh, bind, lift, gets, modify.
  destruct (dc_mesh_at value e); [|exists (heap w); by destruct w].
  by eexists.
Qed.

(** Whatever its outcome, the setter writes the solutions field and objects
    of the store, and nothing else. *)
Lemma set_solutions_frame value w :
  exists h,
    snd (set_solutions value w) =
      with_heap (fun _ => h)
        (with_self (GeoModel.set__solutions (Some value)) w).
Proof.
  rewrite set_solutions_unfold. cbv zeta. set (w1 := with_self _ w).
  destruct (for_enumerate_heap_only (distribute_group value)
              (distribute_group_heap_only value)
              (StructuralFrame.structural_groups (frame_of w)) 0%nat w1)
    as [h1 Hh1].
  destruct (for_enumerate (distribute_group value) 0 _ w1) as [[u|e] w2];
    simpl in Hh1; subst w2; [|by exists h1].
  destruct (for_enumerate_heap_only (distribute_mesh value)
              (distribute_mesh_heap_only value)
              (elements_but_last (with_heap (fun _ => h1) w1)) 0%nat
              (with_heap (fun _ => h1) w1))
    as [h2 Hh2].
  exists h2. by rewrite Hh2.
Qed.

Lemma step_keeps_transform w a :
  GeoModel.transform (self (step w a)) = GeoModel.transform (self w).
Proof.
  destruct a as [|value|objects groups]; simpl.
  - destruct (StructuralFrame.is_dirty (frame_of w)) eqn:Hd.
    + by destruct (read_dirty w Hd) as (ii & _ & _ & _ & _ & _ & HT).
    + by rewrite (read_clean w Hd).
  - destruct (set_solutions_frame value w) as [h Hh]. by rewrite Hh.
  - done.
Qed.

Lemma step_rebuilds_with_transform w a T :
  GeoModel.transform (self w) = T ->
  Forall (fun ii => InterpolationInput.transform ii = T) (rebuild_log w) ->
  Forall (fun ii => InterpolationInput.transform ii = T) (rebuild_log (step w a)).
Proof.
  intros HT Hlog. destruct a as [|value|objects groups]; simpl.
  - destruct (StructuralFrame.is_dirty (frame_of w)) eqn:Hd.
    + destruct (read_dirty w Hd) as (ii & _ & Hii & _ & Hl & _).
      rewrite Hl. apply Forall_app. split; [done|].
      constructor; [|constructor]. by rewrite Hii.
    + by rewrite (read_clean w Hd).
  - destruct (set_solutions_frame value w) as [h Hh]. by rewrite Hh.
  - done.
Qed.

Lemma run_keeps_transform actions : forall w T,
  GeoModel.transform (self w) = T ->
  Forall (fun ii => InterpolationInput.transform ii = T) (rebuild_log w) ->
  GeoModel.transform (self (run w actions)) = T
  /\ Forall (fun ii => InterpolationInput.transform ii = T)
       (rebuild_log (run w actions)).
Proof.
  induction actions as [|a actions IH]; intros w T HT Hlog; simpl; [done|].
  apply IH.
  - by rewrite step_keeps_transform.
  - by apply step_rebuilds_with_transform.
Qed.

(** C7. The transform of a constructed model is the one fitted by the
    constructor from the surface points and orientations of the frame it
    was given; after any sequence of reads, solution assignments and
    structural edits the model still holds that transform, and every input
    built along the way was built with it. *)
Theorem transform_fitted_once_at_construction
    (h : Heap) (name : string) (frame : StructuralFrame.t) (grid : Grid.t)
    (options : InterpolationOptions.t) (w0 : World) (actions : list Action) :
  construct h name frame grid options = Return w0 ->
  Transform.from_input_points (StructuralFrame.surface_points h frame)
    (StructuralFrame.orientations h frame)
    = Return (GeoModel.transform (self w0))
  /\ GeoModel.transform (self (run w0 actions)) = GeoModel.transform (self w0)
  /\ Forall (fun ii =>
               InterpolationInput.transform ii = GeoModel.transform (self w0))
       (rebuild_log (run w0 actions)).
Proof.
  unfold construct, __init__. intros Hc.
  destruct (Transform.from_input_points _ _) as [T|e] eqn:Hfit; [|done].
  injection Hc as <-. simpl. split; [done|].
  apply run_keeps_transform; [done|]. simpl. constructor.
Qed.

(** In the example session the three inputs, one of them built after the
    points were moved, all carry the transform fitted at construction,
    which is not the one the moved points would give. *)
Lemma transform_fitted_once_at_construction_witness :
  length (rebuild_log (run (demo_world 1) demo_session)) = 3%nat
  /\ Forall (fun ii =>
               InterpolationInput.transform ii =
               GeoModel.transform (self (demo_world 1)))
       (rebuild_log (run (demo_world 1) demo_session))
  /\ GeoModel.transform (self (run (demo_world 1) demo_session)) =
     GeoModel.transform (self (demo_world 1))
  /\ Transform.from_input_points
       (StructuralFrame.surface_points moved_heap (demo_frame true))
       (StructuralFrame.orientations moved_heap (demo_frame true))
     <> Return (GeoModel.transform (self (demo_world 1))).
Proof.
  destruct (transform_fitted_once_at_construction demo_heap "demo"
              (demo_frame true) demo_grid (demo_options 1) (demo_world 1)
              demo_session)
    as (_ & Hkeep & Hlog).
  - vm_compute. reflexivity.
  - split; [vm_compute; reflexivity|]. split; [exact Hlog|].
    split; [exact Hkeep|]. vm_compute. discriminate.
Defined.

(** ** Degenerate input *)

Section Coincident.
Variable f : Q -> Q -> Q.
Hypothesis f_selects : forall a b, f a b = a \/ f a b = b.

Lemma pmap2_coincident p a b :
  point_eq p a -> point_eq p b -> point_eq p (Transform.pmap2 f a b).
Proof.
  destruct p as [[px py] pz], a as [[ax ay] az], b as [[bx byy] bz]. simpl.
  intros (Hx & Hy & Hz) (Hx' & Hy' & Hz').
  destruct (f_selects ax bx) as [-> | ->],
           (f_selects ay byy) as [-> | ->],
           (f_selects az bz) as [-> | ->]; done.
Qed.

Lemma foldl_coincident p ps : forall q,
  point_eq p q -> coincident p ps ->
  point_eq p (foldl (Transform.pmap2 f) q ps).
Proof.
  induction ps as [|x ps IH]; intros q Hq Hps; simpl; [done|].
  apply Forall_cons in Hps as [Hx Hps].
  apply IH; [|done]. by apply pmap2_coincident.
Qed.
End Coincident.

Lemma qmax_selects a b : Transform.qmax a b = a \/ Transform.qmax a b = b.
Proof. unfold Transform.qmax. destruct (Qle_bool a b); auto. Qed.

Lemma qmin_selects a b : Transform.qmin a b = a \/ Transform.qmin a b = b.
Proof. unfold Transform.qmin. destruct (Qle_bool a b); auto. Qed.

Lemma zero_extent_coincident p hi lo :
  point_eq p hi -> point_eq p lo ->
  Transform.zero_extent (Transform.pmap2 Qminus hi lo) = true.
Proof.
  destruct p as [[px py] pz], hi as [[hx hy] hz], lo as [[lx ly] lz]. simpl.
  intros (Hx & Hy & Hz) (Hx' & Hy' & Hz').
  rewrite !andb_true_iff, !Qeq_bool_iff.
  rewrite <- Hx, <- Hy, <- Hz, <- Hx', <- Hy', <- Hz'.
  repeat split; ring.
Qed.

(** C9. When all positions of the surface-point and orientation tables
    coincide, fitting a transform from them raises DegenerateInputError,
    and so does the construction of a GeoModel over a frame with these
    tables: the constructor has no handler and no model is made. *)
Theorem coincident_input_is_degenerate
    (sp : list SurfacePoint) (ori : list Orientation) (p : Point) :
  coincident p (Transform.input_points_xyz sp ori) ->
  Transform.from_input_points sp ori = Raise DegenerateInputError
  /\ forall h name frame grid options,
       StructuralFrame.surface_points h frame = sp ->
       StructuralFrame.orientations h frame = ori ->
       __init__ h name frame grid options = Raise DegenerateInputError
       /\ construct h name frame grid options = Raise DegenerateInputError.
Proof.
  intros Hco.
  assert (Hfit : Transform.from_input_points sp ori = Raise DegenerateInputError).
  { unfold Transform.from_input_points.
    destruct (Transform.input_points_xyz sp ori) as [|q ps]; [done|].
    apply Forall_cons in Hco as [Hq Hps]. cbv zeta.
    rewrite (zero_extent_coincident p); [done| |].
    - by apply (foldl_coincident _ qmax_selects).
    - by apply (foldl_coincident _ qmin_selects). }
  split; [done|].
  intros h name frame grid options <- <-.
  unfold construct, __init__. by rewrite Hfit.
Qed.

(** A frame whose only surface has one point three times. *)
Lemma coincident_input_is_degenerate_witness :
  construct repeated_point_heap "repeated" repeated_point_frame demo_grid
    (demo_options 1) = Raise DegenerateInputError.
Proof.
  destruct (coincident_input_is_degenerate
              (StructuralFrame.surface_points repeated_point_heap
                 repeated_point_frame)
              (StructuralFrame.orientations repeated_point_heap
                 repeated_point_frame)
              (pt 1 2 3)) as [_ H].
  - vm_compute. repeat constructor.
  - apply (H repeated_point_heap "repeated" repeated_point_frame demo_grid
             (demo_options 1) eq_refl eq_refl).
Defined.

(** ** Further properties of the setter *)

Lemma for_enumerate_app {A : Type} (body : nat -> A -> M unit) (l1 l2 : list A) :
  forall k w,
    for_enumerate body k (l1 ++ l2) w =
      match for_enumerate body k l1 w with
      | (Return _, w1) => for_enumerate body (k + length l1)%nat l2 w1
      | (Raise e, w1) => (Raise e, w1)
      end.
Proof.
  induction l1 as [|x l1 IH]; intros k w; simpl.
  - by rewrite Nat.add_0_r.
  - unfold bind. destruct (body k x w) as [[u|e] w1]; [|done].
    rewrite IH. by replace (S k + length l1)%nat with (k + S (length l1))%nat by lia.
Qed.

(** What every pass of a loop body over an entry of the list keeps, the
    loop keeps, whether it ends or raises. *)
Lemma for_enumerate_invariant {A : Type} (P : World -> Prop)
    (body : nat -> A -> M unit) (l : list A) :
  (forall e x w, x ∈ l -> P w -> P (snd (body e x w))) ->
  forall k w, P w -> P (snd (for_enumerate body k l w)).
Proof.
  induction l as [|x l IH]; intros Hbody k w HP; simpl; [done|].
  unfold bind. pose proof (Hbody k x w (list_elem_of_here _ _) HP) as Hx.
  destruct (body k x w) as [[u|e] w1]; simpl in *; [|done].
  apply IH; [|done]. intros e y w' Hy. apply Hbody. by apply list_elem_of_further.
Qed.

Lemma NoDup_not_in_take (l : list ref) (k i : nat) (r : ref) :
  NoDup l -> l !! i = Some r -> (k <= i)%nat -> r ∉ take k l.
Proof.
  intros Hnd Hi Hle [j [Hj Hlt]]%elem_of_take.
  pose proof (NoDup_lookup l i j r Hnd Hi Hj). lia.
Qed.

(** X1. Reading [solutions] after an assignment returns the assigned
    object, whether the assignment returned or raised: the field is written
    before anything is distributed and is not restored on an error. *)
Theorem solutions_reads_last_assignment (value : Solutions.t) (w : World) :
  fst (solutions (snd (set_solutions value w))) = Return (Some value).
Proof.
  destruct (set_solutions_frame value w) as [h Hh]. by rewrite Hh.
Qed.

(** The group loop over a list that outruns the slices: the groups before
    the first missing slice are served, the loop stops there. *)
Lemma group_loop_stops value gs j w :
  j = Nat.min (length (scalar_slices value)) (length (block_slices value)) ->
  (j < length gs)%nat ->
  exists ga,
    for_enumerate (distribute_group value) 0 gs w =
      (Raise IndexError,
       with_heap (fun h => {| group_at := ga; element_at := element_at h |}) w)
    /\ (forall g, g ∉ take j gs -> ga !! g = group_at (heap w) !! g)
    /\ (NoDup gs -> forall i g, gs !! i = Some g -> (i < j)%nat ->
          exists sf bm,
            scalar_slices value !! i = Some sf /\
            block_slices value !! i = Some bm /\
            ga !! g =
              StructuralGroup.set_solution
                {| LegacySolution.scalar_field_matrix := sf;
                   LegacySolution.block_matrix := bm |}
                <$> group_at (heap w) !! g).
Proof.
  intros Hj Hlt.
  assert (Hsplit : for_enumerate (distribute_group value) 0 gs w =
                   for_enumerate (distribute_group value) 0
                     (take j gs ++ drop j gs) w) by (by rewrite take_drop).
  rewrite Hsplit, for_enumerate_app.
  assert (Hlen : length (take j gs) = j) by (rewrite length_take; lia).
  destruct (group_loop_returns value (take j gs) 0 w)
    as (ga & Hrun & Hout & _ & Hin); [lia|lia|].
  rewrite Hrun, Hlen. exists ga. split; [|split; [exact Hout|]].
  - destruct (drop j gs) as [|g rest] eqn:Hdrop.
    { apply (f_equal length) in Hdrop. rewrite length_drop in Hdrop.
      simpl in Hdrop. lia. }
    simpl. unfold bind. rewrite distribute_group_out_of_range; [done|lia].
  - intros Hnd i g Hi Hij.
    apply (Hin (sublist_NoDup _ _ Hnd (sublist_take _ _)) i g).
    by rewrite lookup_take_lt.
Qed.

(** X2. When the frame has more groups than there are scalar-field slices
    or block slices, the assignment raises IndexError part-way: the new
    Solutions object is stored, the groups before the first missing slice
    have received their slices, the groups from there on and every element
    are as they were. *)
Theorem failed_group_distribution_is_partial
    (value : Solutions.t) (w : World) (j : nat) :
  j = Nat.min (length (scalar_slices value)) (length (block_slices value)) ->
  (j < n_groups w)%nat ->
  NoDup (StructuralFrame.structural_groups (frame_of w)) ->
  fst (set_solutions value w) = Raise IndexError
  /\ GeoModel._solutions (self (snd (set_solutions value w))) = Some value
  /\ element_at (heap (snd (set_solutions value w))) = element_at (heap w)
  /\ (forall i g,
        StructuralFrame.structural_groups (frame_of w) !! i = Some g ->
        (i < j)%nat ->
        exists sf bm,
          scalar_slices value !! i = Some sf /\
          block_slices value !! i = Some bm /\
          group_at (heap (snd (set_solutions value w))) !! g =
            StructuralGroup.set_solution
              {| LegacySolution.scalar_field_matrix := sf;
                 LegacySolution.block_matrix := bm |}
              <$> group_at (heap w) !! g)
  /\ (forall i g,
        StructuralFrame.structural_groups (frame_of w) !! i = Some g ->
        (j <= i)%nat ->
        group_at (heap (snd (set_solutions value w))) !! g =
        group_at (heap w) !! g).
Proof.
  intros Hj Hlt Hnd. rewrite set_solutions_unfold. cbv zeta.
  set (w1 := with_self _ w).
  destruct (group_loop_stops value
              (StructuralFrame.structural_groups (frame_of w)) j w1 Hj Hlt)
    as (ga & Hrun & Hout & Hin).
  rewrite Hrun. simpl. repeat split; try done.
  - intros i g Hi Hij. by apply (Hin Hnd).
  - intros i g Hi Hji. apply Hout. by eapply NoDup_not_in_take.
Qed.

(** One scalar-field slice for the two groups of the example: the first
    group is served, the second is not, and the error reaches the caller. *)
Lemma failed_group_distribution_is_partial_witness :
  fst (set_solutions short_solutions (demo_world 1)) = Raise IndexError
  /\ (StructuralGroup.solution <$>
        group_at (heap (snd (set_solutions short_solutions (demo_world 1))))
          !! 0%nat) =
     Some (Some {| LegacySolution.scalar_field_matrix := [1]%Q;
                   LegacySolution.block_matrix := [3]%Q |})
  /\ group_at (heap (snd (set_solutions short_solutions (demo_world 1))))
       !! 1%nat = group_at (heap (demo_world 1)) !! 1%nat.
Proof.
  destruct (failed_group_distribution_is_partial short_solutions
              (demo_world 1) 1%nat) as (Hraise & _ & _ & Hin & Hout).
  - vm_compute. reflexivity.
  - vm_compute. lia.
  - apply (bool_decide_unpack _). vm_compute. exact I.
  - split; [exact Hraise|]. split.
    + destruct (Hin 0%nat 0%nat eq_refl) as (sf & bm & Hs & Hb & Hg); [lia|].
      vm_compute in Hs, Hb. injection Hs as <-. injection Hb as <-.
      etrans; [exact (f_equal (fmap StructuralGroup.solution) Hg)|].
      vm_compute. reflexivity.
    + apply (Hout 1%nat 1%nat eq_refl). lia.
Defined.

(** The mesh loop over a list that outruns the mesh list. *)
Lemma mesh_loop_stops value meshes els w :
  Solutions.dc_meshes value = Some meshes ->
  (length meshes < length els)%nat ->
  exists ea,
    for_enumerate (distribute_mesh value) 0 els w =
      (Raise IndexError,
       with_heap (fun h => {| group_at := group_at h; element_at := ea |}) w)
    /\ (forall r, r ∉ take (length meshes) els ->
          ea !! r = element_at (heap w) !! r)
    /\ (NoDup els -> forall i r, els !! i = Some r -> (i < length meshes)%nat ->
          exists d,
            dc_mesh_at value i = Return d /\
            ea !! r =
              with_mesh (GeoModel.transform (self w)) d
                <$> element_at (heap w) !! r).
Proof.
  intros Hm Hlt. set (m := length meshes) in *.
  assert (Hsplit : for_enumerate (distribute_mesh value) 0 els w =
                   for_enumerate (distribute_mesh value) 0
                     (take m els ++ drop m els) w) by (by rewrite take_drop).
  rewrite Hsplit, for_enumerate_app.
  assert (Hlen : length (take m els) = m) by (rewrite length_take; lia).
  destruct (mesh_loop_returns value (take m els) 0 w)
    as (ea & Hrun & Hout & Hin).
  { unfold reaches. rewrite Hm, Hlen. simpl. lia. }
  rewrite Hrun, Hlen. exists ea. split; [|split; [exact Hout|]].
  - destruct (drop m els) as [|r rest] eqn:Hdrop.
    { apply (f_equal length) in Hdrop. rewrite length_drop in Hdrop.
      simpl in Hdrop. lia. }
    simpl. unfold bind.
    rewrite (distribute_mesh_out_of_range _ _ _ _ meshes Hm); [done|].
    unfold m. lia.
  - intros Hnd i r Hi Him.
    apply (Hin (sublist_NoDup _ _ Hnd (sublist_take _ _)) i r).
    by rewrite lookup_take_lt.
Qed.

(** X3. When the groups are served but the mesh list is shorter than the
    covered elements, the assignment raises IndexError part-way through the
    mesh loop: the covered elements with an index in the mesh list hold the
    engine output of their index, the later ones are as they were. *)
Theorem failed_mesh_distribution_is_partial
    (value : Solutions.t) (w : World) (meshes : list (option DCMesh.t)) :
  (n_groups w <= length (scalar_slices value))%nat ->
  (n_groups w <= length (block_slices value))%nat ->
  Solutions.dc_meshes value = Some meshes ->
  (length meshes < length (elements_but_last w))%nat ->
  NoDup (elements_but_last w) ->
  fst (set_solutions value w) = Raise IndexError
  /\ (forall i r,
        elements_but_last w !! i = Some r -> (i < length meshes)%nat ->
        exists d,
          dc_mesh_at value i = Return d /\
          element_at (heap (snd (set_solutions value w))) !! r =
            with_mesh (GeoModel.transform (self w)) d
              <$> element_at (heap w) !! r)
  /\ (forall i r,
        elements_but_last w !! i = Some r -> (length meshes <= i)%nat ->
        element_at (heap (snd (set_solutions value w))) !! r =
        element_at (heap w) !! r).
Proof.
  intros Hsf Hbm Hm Hlt Hnd. rewrite set_solutions_unfold. cbv zeta.
  set (w1 := with_self _ w).
  destruct (group_loop_returns value
              (StructuralFrame.structural_groups (frame_of w)) 0 w1)
    as (ga & Hrun & _ & Hel & _); [done..|].
  rewrite Hrun. set (w2 := with_heap _ w1).
  assert (Hebl : elements_but_last w2 = elements_but_last w).
  { unfold elements_but_last.
    replace (StructuralFrame.structural_elements (heap w2) (frame_of w2))
      with (StructuralFrame.structural_elements (heap w) (frame_of w)); [done|].
    symmetry. apply structural_elements_ext. intros g. apply Hel. }
  rewrite Hebl.
  destruct (mesh_loop_stops value meshes (elements_but_last w) w2 Hm Hlt)
    as (ea & Hrun2 & Hout & Hin).
  rewrite Hrun2. simpl. split; [done|]. split.
  - intros i r Hi Him. by apply (Hin Hnd).
  - intros i r Hi Hmi. apply Hout. by eapply NoDup_not_in_take.
Qed.

(** One mesh for the three covered elements of the example: the first
    element holds it, the third is as it was, IndexError is raised. *)
Lemma failed_mesh_distribution_is_partial_witness :
  fst (set_solutions short_mesh_solutions (demo_world 1)) = Raise IndexError
  /\ (StructuralElement.edges <$>
        element_at (heap (snd (set_solutions short_mesh_solutions (demo_world 1))))
          !! 10%nat) = Some (Some [(0, 0, 0)])
  /\ element_at (heap (snd (set_solutions short_mesh_solutions (demo_world 1))))
       !! 12%nat = element_at (heap (demo_world 1)) !! 12%nat.
Proof.
  destruct (failed_mesh_distribution_is_partial short_mesh_solutions
              (demo_world 1) [Some (demo_mesh [pt 1 1 1] [(0, 0, 0)])])
    as (Hraise & Hin & Hout).
  - vm_compute. lia.
  - vm_compute. lia.
  - reflexivity.
  - vm_compute. lia.
  - apply (bool_decide_unpack _). vm_compute. exact I.
  - split; [exact Hraise|]. split.
    + destruct (Hin 0%nat 10%nat) as (d & Hd & Hr);
        [vm_compute; reflexivity | simpl; lia |].
      vm_compute in Hd. injection Hd as <-.
      etrans; [exact (f_equal (fmap StructuralElement.edges) Hr)|].
      vm_compute. reflexivity.
    + apply (Hout 2%nat 12%nat); [vm_compute; reflexivity | simpl; lia].
Defined.

Lemma same_input_data_refl h : same_input_data h h.
Proof. by split. Qed.

Lemma same_input_data_trans h1 h2 h3 :
  same_input_data h1 h2 -> same_input_data h2 h3 -> same_input_data h1 h3.
Proof.
  intros [Hg1 He1] [Hg2 He2]. split; intros x.
  - by rewrite Hg1. - by rewrite He1.
Qed.

Lemma alter_group_same_input s g h :
  same_input_data (alter_group (StructuralGroup.set_solution s) g h) h.
Proof.
  split; [|done]. intros g'. simpl.
  destruct (decide (g = g')) as [->|Hne].
  - rewrite lookup_alter_eq. by destruct (group_at h !! g').
  - by rewrite lookup_alter_ne.
Qed.

Lemma alter_element_same_input T d r h :
  same_input_data (alter_element (with_mesh T d) r h) h.
Proof.
  split; [done|]. intros r'. simpl.
  destruct (decide (r = r')) as [->|Hne].
  - rewrite lookup_alter_eq. by destruct (element_at h !! r').
  - by rewrite lookup_alter_ne.
Qed.

Lemma distribute_group_same_input value e g w :
  same_input_data (heap (snd (distribute_group value e g w))) (heap w).
Proof.
  unfold distribute_group, bind, lift, index, modify.
  destruct (RawArrays.scalar_field_matrix _ !! e);
    [|apply same_input_data_refl].
  destruct (RawArrays.block_matrix _ !! e); [|apply same_input_data_refl].
  apply alter_group_same_input.
Qed.

Lemma distribute_mesh_same_input value e r w :
  same_input_data (heap (snd (distribute_mesh value e r w))) (heap w).
Proof.
  destruct (dc_mesh_at value e) as [d|err] eqn:Hd.
  - rewrite (distribute_mesh_in_range _ _ _ _ _ Hd).
    apply alter_element_same_input.
  - unfold distribute_mesh, bind, lift. rewrite Hd. apply same_input_data_refl.
Qed.

(** The flattened lists and tables of a frame depend on the input data of
    its objects only. *)
Lemma same_input_data_tables h1 h2 f :
  same_input_data h1 h2 ->
  StructuralFrame.structural_elements h1 f =
    StructuralFrame.structural_elements h2 f
  /\ StructuralFrame.surface_points h1 f = StructuralFrame.surface_points h2 f
  /\ StructuralFrame.orientations h1 f = StructuralFrame.orientations h2 f.
Proof.
  intros [Hg He].
  assert (Hels : StructuralFrame.structural_elements h1 f =
                 StructuralFrame.structural_elements h2 f).
  { apply structural_elements_ext. intros g. specialize (Hg g).
    destruct (group_at h1 !! g), (group_at h2 !! g);
      unfold group_input in Hg; simpl in *; congruence. }
  split; [done|].
  unfold StructuralFrame.surface_points, StructuralFrame.orientations.
  rewrite Hels.
  split; f_equal; apply map_ext; intros r; unfold StructuralFrame.element_field;
    specialize (He r);
    destruct (element_at h1 !! r), (element_at h2 !! r);
    unfold element_input in He; simpl in *; congruence.
Qed.

Lemma set_solutions_same_input value w :
  same_input_data (heap (snd (set_solutions value w))) (heap w).
Proof.
  rewrite set_solutions_unfold. cbv zeta. set (w1 := with_self _ w).
  pose proof (for_enumerate_invariant
                (fun w' => same_input_data (heap w') (heap w))
                (distribute_group value)
                (StructuralFrame.structural_groups (frame_of w))) as Hloop1.
  specialize (Hloop1 (fun e x w' _ H =>
    same_input_data_trans _ _ _ (distribute_group_same_input value e x w') H)
    0%nat w1 (same_input_data_refl _)).
  destruct (for_enumerate (distribute_group value) 0 _ w1) as [[u|e] w2];
    simpl in Hloop1; [|done].
  apply (for_enumerate_invariant
           (fun w' => same_input_data (heap w') (heap w))
           (distribute_mesh value)); [|done].
  intros e x w' _ H.
  exact (same_input_data_trans _ _ _ (distribute_mesh_same_input value e x w') H).
Qed.

(** X4. Whatever its outcome, an assignment of solutions changes no input
    of the model: names, element lists and relation types of the groups,
    names, surface points and orientations of the elements are as before,
    so [surface_points] and [orientations] read the same tables; the frame
    with its flag, the grid, the cached input and the recorded warnings are
    not written. *)
Theorem set_solutions_keeps_input_data (value : Solutions.t) (w : World) :
  same_input_data (heap (snd (set_solutions value w))) (heap w)
  /\ fst (surface_points (snd (set_solutions value w))) = fst (surface_points w)
  /\ fst (orientations (snd (set_solutions value w))) = fst (orientations w)
  /\ frame_of (snd (set_solutions value w)) = frame_of w
  /\ GeoModel.grid (self (snd (set_solutions value w))) = GeoModel.grid (self w)
  /\ GeoModel._interpolationInput (self (snd (set_solutions value w))) =
     GeoModel._interpolationInput (self w)
  /\ warnings (snd (set_solutions value w)) = warnings w
  /\ rebuild_log (snd (set_solutions value w)) = rebuild_log w.
Proof.
  pose proof (set_solutions_same_input value w) as Hsame.
  destruct (same_input_data_tables _ _ (frame_of w) Hsame) as (_ & Hsp & Hor).
  destruct (set_solutions_frame value w) as [h Hh].
  split; [done|]. rewrite Hh in Hsp, Hor |- *. simpl in *.
  unfold frame_of. simpl. by repeat split; try (f_equal; done).
Qed.

Lemma distribute_group_other value e x w g :
  x <> g ->
  group_at (heap (snd (distribute_group value e x w))) !! g =
    group_at (heap w) !! g
  /\ element_at (heap (snd (distribute_group value e x w))) =
     element_at (heap w).
Proof.
  intros Hne. unfold distribute_group, bind, lift, index, modify.
  destruct (RawArrays.scalar_field_matrix _ !! e); [|done].
  destruct (RawArrays.block_matrix _ !! e); [|done].
  simpl. by rewrite lookup_alter_ne.
Qed.

Lemma distribute_group_keeps_elements value e x w :
  element_at (heap (snd (distribute_group value e x w))) = element_at (heap w).
Proof.
  unfold distribute_group, bind, lift, index, modify.
  destruct (RawArrays.scalar_field_matrix _ !! e); [|done].
  by destruct (RawArrays.block_matrix _ !! e).
Qed.

Lemma distribute_mesh_other value e x w r :
  x <> r ->
  element_at (heap (snd (distribute_mesh value e x w))) !! r =
  element_at (heap w) !! r.
Proof.
  intros Hne. destruct (dc_mesh_at value e) as [d|err] eqn:Hd.
  - rewrite (distribute_mesh_in_range _ _ _ _ _ Hd). simpl.
    by rewrite lookup_alter_ne.
  - unfold distribute_mesh, bind, lift. by rewrite Hd.
Qed.

(** X5. Whatever its outcome, an assignment of solutions writes no group
    outside the group list of the frame and no element outside the
    flattened element list without its last entry: every other object of
    the store is as it was. *)
Theorem set_solutions_leaves_unvisited_objects (value : Solutions.t) (w : World) :
  (forall g,
     g ∉ StructuralFrame.structural_groups (frame_of w) ->
     group_at (heap (snd (set_solutions value w))) !! g = group_at (heap w) !! g)
  /\ (forall r,
        r ∉ elements_but_last w ->
        element_at (heap (snd (set_solutions value w))) !! r =
        element_at (heap w) !! r).
Proof.
  rewrite set_solutions_unfold. cbv zeta. set (w1 := with_self _ w).
  set (gs := StructuralFrame.structural_groups (frame_of w)).
  destruct (for_enumerate_invariant
              (fun w' =>
                 same_input_data (heap w') (heap w)
                 /\ frame_of w' = frame_of w
                 /\ element_at (heap w') = element_at (heap w)
                 /\ forall g, g ∉ gs ->
                      group_at (heap w') !! g = group_at (heap w) !! g)
              (distribute_group value) gs) with (k := 0%nat) (w := w1)
    as (Hs & Hf & He & Hg).
  { intros e x w' Hx (Hs & Hf & He & Hg). split; [|split; [|split]].
    - eapply same_input_data_trans; [apply distribute_group_same_input|done].
    - destruct (distribute_group_heap_only value e x w') as [h Hh].
      by rewrite Hh.
    - by rewrite distribute_group_keeps_elements.
    - intros g Hgs.
      destruct (distribute_group_other value e x w' g) as [-> _]; [|by apply Hg].
      intros ->. by apply Hgs. }
  { split; [apply same_input_data_refl|done]. }
  destruct (for_enumerate (distribute_group value) 0 gs w1) as [[u|e] w2];
    simpl in *; [|by rewrite He].
  split.
  - intros g Hgs. rewrite mesh_loop_keeps_groups. by apply Hg.
  - intros r Hr.
    assert (Hebl : elements_but_last w2 = elements_but_last w).
    { unfold elements_but_last. rewrite Hf.
      by destruct (same_input_data_tables _ _ (frame_of w) Hs) as (-> & _). }
    rewrite Hebl, <- He.
    apply (for_enumerate_invariant
             (fun w' => element_at (heap w') !! r = element_at (heap w2) !! r)
             (distribute_mesh value)); [|done].
    intros e x w' Hx Hw'. rewrite <- Hw'. apply distribute_mesh_other.
    intros ->. by apply Hr.
Qed.

(** The basement of the example after an assignment that raised. *)
Lemma set_solutions_leaves_unvisited_objects_witness :
  element_at (heap (snd (set_solutions short_mesh_solutions (demo_world 1))))
    !! 13%nat = element_at (heap (demo_world 1)) !! 13%nat.
Proof.
  apply (proj2 (set_solutions_leaves_unvisited_objects short_mesh_solutions
                  (demo_world 1))).
  apply (bool_decide_unpack _). vm_compute. exact I.
Defined.

(** Everything in range: the whole effect of the setter on the store. *)
Lemma set_solutions_effect value w :
  (n_groups w <= length (scalar_slices value))%nat ->
  (n_groups w <= length (block_slices value))%nat ->
  meshes_cover value w ->
  exists ga ea,
    set_solutions value w =
      (Return tt,
       {| heap := {| group_at := ga; element_at := ea |};
          self := GeoModel.set__solutions (Some value) (self w);
          warnings := warnings w;
          rebuild_log := rebuild_log w |})
    /\ (forall g, g ∉ StructuralFrame.structural_groups (frame_of w) ->
          ga !! g = group_at (heap w) !! g)
    /\ (forall g, StructuralGroup.elements <$> ga !! g =
                  StructuralGroup.elements <$> group_at (heap w) !! g)
    /\ (NoDup (StructuralFrame.structural_groups (frame_of w)) ->
        forall i g,
          StructuralFrame.structural_groups (frame_of w) !! i = Some g ->
          exists sf bm,
            scalar_slices value !! i = Some sf /\
            block_slices value !! i = Some bm /\
            ga !! g =
              StructuralGroup.set_solution
                {| LegacySolution.scalar_field_matrix := sf;
                   LegacySolution.block_matrix := bm |}
                <$> group_at (heap w) !! g)
    /\ (forall r, r ∉ elements_but_last w -> ea !! r = element_at (heap w) !! r)
    /\ (NoDup (elements_but_last w) ->
        forall i r, elements_but_last w !! i = Some r ->
          exists d,
            dc_mesh_at value i = Return d /\
            ea !! r =
              with_mesh (GeoModel.transform (self w)) d
                <$> element_at (heap w) !! r).
Proof.
  intros Hsf Hbm Hcov. rewrite set_solutions_unfold. cbv zeta.
  set (w1 := with_self _ w).
  destruct (group_loop_returns value
              (StructuralFrame.structural_groups (frame_of w)) 0 w1)
    as (ga & Hrun & Hgout & Hel & Hgin); [done..|].
  rewrite Hrun. set (w2 := with_heap _ w1).
  assert (Hebl : elements_but_last w2 = elements_but_last w).
  { unfold elements_but_last.
    replace (StructuralFrame.structural_elements (heap w2) (frame_of w2))
      with (StructuralFrame.structural_elements (heap w) (frame_of w)); [done|].
    symmetry. apply structural_elements_ext. intros g. apply Hel. }
  rewrite Hebl.
  destruct (mesh_loop_returns value (elements_but_last w) 0 w2)
    as (ea & Hrun2 & Hout & Hin); [done|].
  exists ga, ea. rewrite Hrun2. by repeat split.
Qed.

(** X6. Of two assignments in a row, both with every index in range, the
    second one decides the result: the model, its groups and its elements
    end exactly as if only the second Solutions object had been assigned.
    The groups of the frame are distinct objects, and so are its covered
    elements. *)
Theorem reassignment_overwrites (v1 v2 : Solutions.t) (w : World) :
  in_range v1 w = true ->
  in_range v2 w = true ->
  NoDup (StructuralFrame.structural_groups (frame_of w)) ->
  NoDup (elements_but_last w) ->
  set_solutions v2 (snd (set_solutions v1 w)) = set_solutions v2 w.
Proof.
  intros Hr1 Hr2 Hndg Hnde. unfold in_range in Hr1, Hr2.
  apply andb_prop in Hr1 as [Hr1 Hm1]. apply andb_prop in Hr1 as [Hsf1 Hbm1].
  apply andb_prop in Hr2 as [Hr2 Hm2]. apply andb_prop in Hr2 as [Hsf2 Hbm2].
  apply Nat.leb_le in Hsf1, Hbm1, Hsf2, Hbm2.
  apply reachesb_spec in Hm1, Hm2.
  destruct (set_solutions_effect v1 w Hsf1 Hbm1 Hm1)
    as (ga1 & ea1 & Hrun1 & Hgout1 & Hel1 & Hgin1 & Heout1 & Hein1).
  destruct (set_solutions_effect v2 w Hsf2 Hbm2 Hm2)
    as (ga & ea & Hrun & Hgout & _ & Hgin & Heout & Hein).
  rewrite Hrun1. cbn [snd]. set (w1 := mkWorld _ _ _ _).
  assert (Hebl : elements_but_last w1 = elements_but_last w).
  { unfold elements_but_last.
    replace (StructuralFrame.structural_elements (heap w1) (frame_of w1))
      with (StructuralFrame.structural_elements (heap w) (frame_of w)); [done|].
    symmetry. apply structural_elements_ext. intros g. apply Hel1. }
  destruct (set_solutions_effect v2 w1)
    as (ga2 & ea2 & Hrun2 & Hgout2 & _ & Hgin2 & Heout2 & Hein2);
    [done|done|by unfold meshes_cover; rewrite Hebl|].
  rewrite Hebl in Heout2, Hein2.
  rewrite Hrun2, Hrun. f_equal. f_equal. f_equal.
  - apply map_eq. intros g.
    destruct (decide (g ∈ StructuralFrame.structural_groups (frame_of w)))
      as [Hg|Hg].
    + apply list_elem_of_lookup_1 in Hg as [i Hi].
      destruct (Hgin1 Hndg i g Hi) as (sf1 & bm1 & _ & _ & Hg1).
      destruct (Hgin Hndg i g Hi) as (sf & bm & Es & Eb & Hgw).
      destruct (Hgin2 Hndg i g Hi) as (sf2 & bm2 & Es2 & Eb2 & Hg2).
      rewrite Es in Es2. rewrite Eb in Eb2.
      injection Es2 as <-. injection Eb2 as <-.
      rewrite Hg2, Hgw. simpl. rewrite Hg1.
      by destruct (group_at (heap w) !! g).
    + rewrite (Hgout2 g Hg), (Hgout g Hg). simpl. by apply Hgout1.
  - apply map_eq. intros r.
    destruct (decide (r ∈ elements_but_last w)) as [Hr|Hr].
    + apply list_elem_of_lookup_1 in Hr as [i Hi].
      destruct (Hein1 Hnde i r Hi) as (d1 & _ & Hr1).
      destruct (Hein Hnde i r Hi) as (d & Hd & Hrw).
      destruct (Hein2 Hnde i r Hi) as (d2 & Hd2 & Hr2).
      rewrite Hd in Hd2. injection Hd2 as <-.
      rewrite Hr2, Hrw. simpl. rewrite Hr1.
      by destruct (element_at (heap w) !! r).
    + rewrite (Heout2 r Hr), (Heout r Hr). simpl. by apply Heout1.
Qed.

(** The example: the surplus slices first, then the ones that fit. *)
Lemma reassignment_overwrites_witness :
  set_solutions demo_solutions
    (snd (set_solutions surplus_solutions (demo_world 1))) =
  set_solutions demo_solutions (demo_world 1).
Proof.
  apply reassignment_overwrites.
  - vm_compute. reflexivity.
  - vm_compute. reflexivity.
  - apply (bool_decide_unpack _). vm_compute. exact I.
  - apply (bool_decide_unpack _). vm_compute. exact I.
Defined.

(** ** Further properties of the getter and of the constructor *)

(** X7. A read of [interpolation_input] writes no group and no element, and
    leaves the frame, the transform, the options, the solutions, the
    metadata and the extent of the regular grid as they were, with or
    without octrees and whether or not the frame is dirty. *)
Theorem interpolation_input_writes_cache_and_grid_only (w : World) :
  heap (snd (interpolation_input w)) = heap w
  /\ frame_of (snd (interpolation_input w)) = frame_of w
  /\ GeoModel.transform (self (snd (interpolation_input w))) =
     GeoModel.transform (self w)
  /\ GeoModel.interpolation_options (self (snd (interpolation_input w))) =
     GeoModel.interpolation_options (self w)
  /\ GeoModel._solutions (self (snd (interpolation_input w))) =
     GeoModel._solutions (self w)
  /\ GeoModel.meta (self (snd (interpolation_input w))) = GeoModel.meta (self w)
  /\ RegularGrid.extent (regular_grid_of (snd (interpolation_input w))) =
     RegularGrid.extent (regular_grid_of w).
Proof.
  destruct (StructuralFrame.is_dirty (frame_of w)) eqn:Hd.
  - destruct (Z.ltb_spec 1 (InterpolationOptions.number_octree_levels
                              (GeoModel.interpolation_options (self w))))
      as [Hn|Hn].
    + rewrite (read_dirty_octrees w Hd Hn). cbv zeta. by repeat split.
    + rewrite (read_dirty_flat w Hd Hn). cbv zeta. by repeat split.
  - rewrite (read_clean w Hd). by repeat split.
Qed.

(** X8. A dirty read with more than one octree level and no resolution on
    the regular grid sets the resolution to 2 ^ levels on each axis and
    records no warning. *)
Theorem octree_read_without_resolution (w : World) :
  StructuralFrame.is_dirty (frame_of w) = true ->
  1 < InterpolationOptions.number_octree_levels
        (GeoModel.interpolation_options (self w)) ->
  RegularGrid.resolution (regular_grid_of w) = None ->
  let n := InterpolationOptions.number_octree_levels
             (GeoModel.interpolation_options (self w)) in
  RegularGrid.resolution (regular_grid_of (snd (interpolation_input w))) =
    Some [2 ^ n; 2 ^ n; 2 ^ n]
  /\ warnings (snd (interpolation_input w)) = warnings w.
Proof.
  intros Hd Hn Hr. rewrite (read_dirty_octrees w Hd Hn). cbv zeta. simpl.
  by rewrite Hr.
Qed.

Lemma octree_read_without_resolution_witness :
  RegularGrid.resolution
    (regular_grid_of (snd (interpolation_input (bare_world 3)))) =
    Some [8; 8; 8]
  /\ warnings (snd (interpolation_input (bare_world 3))) = [].
Proof.
  apply (octree_read_without_resolution (bare_world 3)).
  - vm_compute. reflexivity.
  - vm_compute. reflexivity.
  - vm_compute. reflexivity.
Defined.

(** Reads of a dirty model with octrees whose grid already has the octree
    resolution: the grid stays, each read adds the warning. *)
Lemma octree_reads_on_overwritten_grid n E k : forall w,
  StructuralFrame.is_dirty (frame_of w) = true ->
  InterpolationOptions.number_octree_levels
    (GeoModel.interpolation_options (self w)) = n ->
  1 < n ->
  GeoModel.grid (self w) =
    {| Grid.regular_grid :=
         {| RegularGrid.extent := E;
            RegularGrid.resolution := Some [2 ^ n; 2 ^ n; 2 ^ n] |} |} ->
  GeoModel.grid (self (run w (repeat ReadInterpolationInput k))) =
    GeoModel.grid (self w)
  /\ warnings (run w (repeat ReadInterpolationInput k)) =
     warnings w ++ repeat (mkWarning overwrite_warning UserWarning) k.
Proof.
  induction k as [|k IH]; intros w Hd Hn Hlt Hg; simpl.
  - by rewrite app_nil_r.
  - assert (Hlt' : 1 < InterpolationOptions.number_octree_levels
                         (GeoModel.interpolation_options (self w))) by lia.
    pose proof (read_dirty_octrees w Hd Hlt') as Hread. cbv zeta in Hread.
    unfold regular_grid_of in Hread. rewrite Hg, Hn in Hread. simpl in Hread.
    destruct (IH (snd (interpolation_input w))) as [IHg IHw];
      [by rewrite Hread|by rewrite Hread|done|by rewrite Hread|].
    rewrite IHg, IHw, Hread. simpl. split; [by rewrite Hg|].
    by rewrite <- app_assoc.
Qed.

(** X9. On a dirty model with more than one octree level, the reads that
    follow the first one find the resolution the first one wrote: each of
    them leaves the grid as it is and records the overwrite warning again,
    whether or not the caller ever set a resolution. *)
Theorem octree_reads_warn_each_time (w : World) (k : nat) :
  StructuralFrame.is_dirty (frame_of w) = true ->
  1 < InterpolationOptions.number_octree_levels
        (GeoModel.interpolation_options (self w)) ->
  GeoModel.grid
    (self (run (snd (interpolation_input w)) (repeat ReadInterpolationInput k))) =
    GeoModel.grid (self (snd (interpolation_input w)))
  /\ warnings
       (run (snd (interpolation_input w)) (repeat ReadInterpolationInput k)) =
     warnings (snd (interpolation_input w))
       ++ repeat (mkWarning overwrite_warning UserWarning) k.
Proof.
  intros Hd Hn.
  apply (octree_reads_on_overwritten_grid
           (InterpolationOptions.number_octree_levels
              (GeoModel.interpolation_options (self w)))
           (RegularGrid.extent (regular_grid_of w))); [| |done|].
  - by rewrite read_keeps_dirty_flag.
  - by rewrite (read_dirty_octrees w Hd Hn).
  - rewrite (read_dirty_octrees w Hd Hn). cbv zeta. done.
Qed.

(** The example without a resolution: no warning at the first read, two
    after three reads. *)
Lemma octree_reads_warn_each_time_witness :
  warnings (snd (interpolation_input (bare_world 3))) = []
  /\ warnings
       (run (bare_world 3)
          [ReadInterpolationInput; ReadInterpolationInput;
           ReadInterpolationInput]) =
     [mkWarning overwrite_warning UserWarning;
      mkWarning overwrite_warning UserWarning].
Proof.
  split; [vm_compute; reflexivity|].
  destruct (octree_reads_warn_each_time (bare_world 3) 2) as [_ Hw].
  - vm_compute. reflexivity.
  - vm_compute. reflexivity.
  - etrans; [exact Hw|]. vm_compute. reflexivity.
Defined.

(** X10. A model that has just been constructed holds the frame, grid and
    options it was given, no solutions and no cached input: its first read
    of [interpolation_input] returns None when the frame is not dirty, and
    an input built from the given objects, frame and transform when it is. *)
Theorem fresh_model_has_no_cache
    (h : Heap) (name : string) (frame : StructuralFrame.t) (grid : Grid.t)
    (options : InterpolationOptions.t) (w0 : World) :
  construct h name frame grid options = Return w0 ->
  fst (solutions w0) = Return None
  /\ heap w0 = h /\ frame_of w0 = frame /\ GeoModel.grid (self w0) = grid
  /\ GeoModel.interpolation_options (self w0) = options
  /\ (StructuralFrame.is_dirty frame = false ->
      interpolation_input w0 = (Return None, w0))
  /\ (StructuralFrame.is_dirty frame = true ->
      exists ii,
        fst (interpolation_input w0) = Return (Some ii)
        /\ InterpolationInput.objects ii = h
        /\ InterpolationInput.structural_frame ii = frame
        /\ InterpolationInput.transform ii = GeoModel.transform (self w0)).
Proof.
  unfold construct, __init__. intros Hc.
  destruct (Transform.from_input_points _ _) as [T|e]; [|done].
  injection Hc as <-. simpl. repeat split; try done.
  - intros Hd. by rewrite read_clean.
  - intros Hd.
    match goal with |- context [interpolation_input ?w] =>
      destruct (read_dirty w Hd) as (ii & Hret & Hii & _) end.
    exists ii. split; [done|]. by rewrite Hii.
Qed.

Lemma fresh_model_has_no_cache_witness :
  exists ii,
    fst (interpolation_input (demo_world 1)) = Return (Some ii)
    /\ InterpolationInput.objects ii = demo_heap.
Proof.
  destruct (fresh_model_has_no_cache demo_heap "demo" (demo_frame true)
              demo_grid (demo_options 1) (demo_world 1))
    as (_ & _ & _ & _ & _ & _ & Hdirty).
  - vm_compute. reflexivity.
  - destruct Hdirty as (ii & Hret & Hobj & _); [reflexivity|].
    exists ii. split; [exact Hret | exact Hobj].
Defined.

(** ** Selecting the data of surfaces *)

Lemma get_group_present df name :
  (exists r, r ∈ df /\ Vista.surface r = name) ->
  Vista.get_group df name = Vista.Ok (filter (fun r => Vista.surface r = name) df).
Proof.
  intros (r & Hr & Hs). unfold Vista.get_group.
  destruct (filter _ df) as [|x rows] eqn:Hf; [|done].
  assert (Hin : r ∈ filter (fun r => Vista.surface r = name) df)
    by (by apply list_elem_of_filter).
  rewrite Hf in Hin. by apply not_elem_of_nil in Hin.
Qed.

Lemma get_group_absent df name :
  (forall r, r ∈ df -> Vista.surface r <> name) ->
  Vista.get_group df name = Vista.Fail (Vista.KeyError name).
Proof.
  intros Hno. unfold Vista.get_group.
  destruct (filter _ df) as [|x rows] eqn:Hf; [done|].
  assert (Hin : x ∈ filter (fun r => Vista.surface r = name) df)
    by (rewrite Hf; left).
  apply list_elem_of_filter in Hin as [Hs Hx]. by destruct (Hno x Hx).
Qed.

Lemma get_groups_present df names :
  (forall name, name ∈ names -> exists r, r ∈ df /\ Vista.surface r = name) ->
  Vista.get_groups df names =
    Vista.Ok (map (fun name => filter (fun r => Vista.surface r = name) df) names).
Proof.
  induction names as [|name names IH]; intros Hall; simpl; [done|].
  rewrite get_group_present by (apply Hall; left).
  rewrite IH; [done|]. intros n Hn. apply Hall. by right.
Qed.

(** The rows of a surface and the rows of other surfaces, put together. *)
Lemma filter_surface_split (df : Vista.DataFrame) (name : string) (names : list string) :
  name ∉ names ->
  filter (fun r => Vista.surface r ∈ name :: names) df ≡ₚ
  filter (fun r => Vista.surface r = name) df
    ++ filter (fun r => Vista.surface r ∈ names) df.
Proof.
  intros Hname. induction df as [|r df IH]; [done|].
  destruct (decide (Vista.surface r = name)) as [Heq|Hne].
  - rewrite (filter_cons_True (fun r => Vista.surface r ∈ name :: names))
      by (rewrite Heq; left).
    rewrite (filter_cons_True (fun r => Vista.surface r = name)) by done.
    rewrite (filter_cons_False (fun r => Vista.surface r ∈ names))
      by (by rewrite Heq).
    simpl. by rewrite IH.
  - rewrite (filter_cons_False (fun r => Vista.surface r = name)) by done.
    destruct (decide (Vista.surface r ∈ names)) as [Hin|Hnin].
    + rewrite (filter_cons_True (fun r => Vista.surface r ∈ name :: names))
        by (by right).
      rewrite (filter_cons_True (fun r => Vista.surface r ∈ names)) by done.
      rewrite IH. apply Permutation_middle.
    + rewrite (filter_cons_False (fun r => Vista.surface r ∈ name :: names))
        by (rewrite elem_of_cons; tauto).
      by rewrite (filter_cons_False (fun r => Vista.surface r ∈ names)) by done.
Qed.

Lemma concat_groups_permutation (df : Vista.DataFrame) (names : list string) :
  NoDup names ->
  concat (map (fun name => filter (fun r => Vista.surface r = name) df) names) ≡ₚ
  filter (fun r => Vista.surface r ∈ names) df.
Proof.
  induction 1 as [|name names Hname Hnd IH].
  - induction df as [|r df IHdf]; [done|].
    rewrite filter_cons_False; [done|]. apply not_elem_of_nil.
  - change (filter (fun r => Vista.surface r = name) df
              ++ concat (map (fun n => filter (fun r => Vista.surface r = n) df)
                             names)
            ≡ₚ filter (fun r => Vista.surface r ∈ name :: names) df).
    rewrite IH. symmetry. by apply filter_surface_split.
Qed.

(** X11. For a non-empty list of surface names each of which has a row, the
    selection is the rows of the first name in their order, then those of
    the second, and so on; every selected row is a row of the frame on one
    of the named surfaces, and when no name is repeated the selection is a
    rearrangement of exactly the rows of the frame on the named surfaces. *)
Theorem select_surfaces_by_names
    (df : Vista.DataFrame) (name : string) (names : list string) :
  (forall n, n ∈ name :: names -> exists r, r ∈ df /\ Vista.surface r = n) ->
  exists rows,
    Vista._select_surfaces_data df (Vista.Names (name :: names)) = Vista.Ok rows
    /\ rows = concat (map (fun n => filter (fun r => Vista.surface r = n) df)
                          (name :: names))
    /\ (forall r, r ∈ rows -> r ∈ df /\ Vista.surface r ∈ name :: names)
    /\ (NoDup (name :: names) ->
        rows ≡ₚ filter (fun r => Vista.surface r ∈ name :: names) df).
Proof.
  intros Hall. eexists. split; [|split; [reflexivity|split]].
  - unfold Vista._select_surfaces_data. simpl Vista.is_all. cbv iota.
    unfold Vista.iterate. by rewrite (get_groups_present df (name :: names) Hall).
  - intros r Hr. apply list_elem_of_In, in_concat in Hr as (rows & Hrows & Hr).
    apply in_map_iff in Hrows as (n & <- & Hn).
    apply list_elem_of_In, list_elem_of_filter in Hr as [Hs Hr].
    split; [done|]. rewrite Hs. by apply list_elem_of_In.
  - apply concat_groups_permutation.
Qed.

(** The example: the fault first, then the two rows of the first rock. *)
Lemma select_surfaces_by_names_witness :
  Vista._select_surfaces_data demo_frame_rows (Vista.Names ["fault"; "rock1"]) =
  Vista.Ok [Vista.mk 3 "fault" [0; 0; 0]%Q; Vista.mk 0 "rock1" [1; 2; 3]%Q;
            Vista.mk 2 "rock1" [7; 8; 9]%Q].
Proof.
  destruct (select_surfaces_by_names demo_frame_rows "fault" ["rock1"])
    as (rows & Hsel & Hrows & _).
  - intros n Hn. apply elem_of_cons in Hn as [->|Hn].
    + exists (Vista.mk 3 "fault" [0; 0; 0]%Q). split; [|reflexivity].
      unfold demo_frame_rows. repeat constructor.
    + apply elem_of_cons in Hn as [->|Hn];
        [|by apply not_elem_of_nil in Hn].
      exists (Vista.mk 0 "rock1" [1; 2; 3]%Q). split; [|reflexivity].
      unfold demo_frame_rows. repeat constructor.
  - rewrite Hsel, Hrows. vm_compute. reflexivity.
Defined.

Lemma get_groups_missing df before after name :
  (forall n, n ∈ before -> exists r, r ∈ df /\ Vista.surface r = n) ->
  (forall r, r ∈ df -> Vista.surface r <> name) ->
  Vista.get_groups df (before ++ name :: after) =
    Vista.Fail (Vista.KeyError name).
Proof.
  intros Hbefore Hno. induction before as [|b before IH]; simpl.
  - by rewrite get_group_absent.
  - rewrite get_group_present by (apply Hbefore; left).
    rewrite IH; [done|]. intros n Hn. apply Hbefore. by right.
Qed.

(** X12. When a requested surface name has no row in the frame, the
    selection raises KeyError, with the first such name of the list. *)
Theorem select_surfaces_missing_name
    (df : Vista.DataFrame) (before after : list string) (name : string) :
  (forall n, n ∈ before -> exists r, r ∈ df /\ Vista.surface r = n) ->
  (forall r, r ∈ df -> Vista.surface r <> name) ->
  Vista._select_surfaces_data df (Vista.Names (before ++ name :: after)) =
    Vista.Fail (Vista.KeyError name).
Proof.
  intros Hbefore Hno. unfold Vista._select_surfaces_data. simpl Vista.is_all.
  cbv iota. unfold Vista.iterate. by rewrite get_groups_missing.
Qed.

Lemma select_surfaces_missing_name_witness :
  Vista._select_surfaces_data demo_frame_rows
    (Vista.Names ["rock1"; "rock3"; "fault"]) =
  Vista.Fail (Vista.KeyError "rock3").
Proof.
  apply (select_surfaces_missing_name demo_frame_rows ["rock1"] ["fault"] "rock3").
  - intros n Hn. apply elem_of_cons in Hn as [->|Hn];
      [|by apply not_elem_of_nil in Hn].
    exists (Vista.mk 0 "rock1" [1; 2; 3]%Q). split; [|reflexivity].
    unfold demo_frame_rows. repeat constructor.
  - apply Forall_forall. apply (bool_decide_unpack _). vm_compute. exact I.
Defined.

(** A character of two bytes stays whole, ASCII characters come one by one. *)
Lemma characters_two_byte_character :
  Vista.characters
    (String (Ascii.ascii_of_nat 195) (String (Ascii.ascii_of_nat 169) "tude")) =
  [String (Ascii.ascii_of_nat 195) (String (Ascii.ascii_of_nat 169) "");
   "t"; "u"; "d"; "e"].
Proof. reflexivity. Qed.

(** X13. A surface name passed as a string other than 'all' is iterated
    character by character: unless the frame has a surface whose name is
    the first character alone, the selection raises KeyError with that
    character, also when the frame has rows on the surface of that name. *)
Theorem select_surfaces_single_name_as_string
    (df : Vista.DataFrame) (s ch : string) (chs : list string) :
  s <> "all" ->
  Vista.characters s = ch :: chs ->
  (forall r, r ∈ df -> Vista.surface r <> ch) ->
  Vista._select_surfaces_data df (Vista.Name s) =
    Vista.Fail (Vista.KeyError ch).
Proof.
  intros Hne Hch Hno. unfold Vista._select_surfaces_data, Vista.is_all.
  rewrite bool_decide_eq_false_2 by done.
  unfold Vista.iterate. rewrite Hch. simpl. by rewrite get_group_absent.
Qed.

(** The example has two rows on [rock1]; asking for it as a string fails
    on its first letter. *)
Lemma select_surfaces_single_name_as_string_witness :
  Vista._select_surfaces_data demo_frame_rows (Vista.Name "rock1") =
    Vista.Fail (Vista.KeyError "r").
Proof.
  apply (select_surfaces_single_name_as_string demo_frame_rows "rock1" "r"
           ["o"; "c"; "k"; "1"]).
  - discriminate.
  - reflexivity.
  - apply Forall_forall. apply (bool_decide_unpack _). vm_compute. exact I.
Defined.

Lemma get_groups_ok_inv df names frames :
  Vista.get_groups df names = Vista.Ok frames ->
  forall n, n ∈ names -> exists r, r ∈ df /\ Vista.surface r = n.
Proof.
  revert frames. induction names as [|name names IH]; intros frames Hok n Hn.
  { by apply not_elem_of_nil in Hn. }
  simpl in Hok. unfold Vista.get_group in Hok.
  destruct (filter (fun r => Vista.surface r = name) df) as [|x rows] eqn:Hf;
    [done|].
  destruct (Vista.get_groups df names) as [frames'|e]; [|done].
  apply elem_of_cons in Hn as [->|Hn]; [|by eapply IH].
  exists x. assert (Hx : x ∈ filter (fun r => Vista.surface r = name) df)
    by (rewrite Hf; left).
  apply list_elem_of_filter in Hx as [Hs Hx]. done.
Qed.

(** X14. A selection by a list of surface names returns a frame exactly
    when the list is not empty and every name in it has a row: an empty
    list is an error (ValueError), not an empty selection. *)
Theorem select_surfaces_succeeds_iff (df : Vista.DataFrame) (names : list string) :
  (exists rows, Vista._select_surfaces_data df (Vista.Names names) = Vista.Ok rows)
  <-> names <> []
      /\ forall n, n ∈ names -> exists r, r ∈ df /\ Vista.surface r = n.
Proof.
  unfold Vista._select_surfaces_data. simpl Vista.is_all. cbv iota.
  unfold Vista.iterate. split.
  - intros [rows Hok].
    destruct (Vista.get_groups df names) as [frames|e] eqn:Hg; [|done].
    split; [|by eapply get_groups_ok_inv].
    intros ->. simpl in Hg. injection Hg as <-. done.
  - intros [Hne Hall]. rewrite (get_groups_present df names Hall).
    destruct names as [|name names]; [done|]. by eexists.
Qed.

Lemma select_surfaces_succeeds_iff_witness :
  Vista._select_surfaces_data demo_frame_rows (Vista.Names []) =
    Vista.Fail Vista.ValueError
  /\ ~ exists rows,
        Vista._select_surfaces_data demo_frame_rows (Vista.Names []) =
        Vista.Ok rows.
Proof.
  split; [reflexivity|].
  intros Hok.
  apply (proj1 (select_surfaces_succeeds_iff demo_frame_rows [])) in Hok.
  by destruct Hok as [Hne _].
Defined.

(** ** Absent meshes and short mesh lists *)

Lemma dc_mesh_at_reaches value e d :
  dc_mesh_at value e = Return d -> reaches value (S e).
Proof.
  unfold dc_mesh_at, reaches, index.
  destruct (Solutions.dc_meshes value) as [meshes|]; [|done].
  destruct (meshes !! e) as [x|] eqn:Hx; [|done].
  intros _. apply lookup_lt_Some in Hx. lia.
Qed.

(** Whether it ends or raises, the mesh loop writes the elements of its
    list only. *)
Lemma mesh_loop_outside value els k w r :
  r ∉ els ->
  element_at (heap (snd (for_enumerate (distribute_mesh value) k els w))) !! r =
  element_at (heap w) !! r.
Proof.
  intros Hr.
  apply (for_enumerate_invariant
           (fun w' => element_at (heap w') !! r = element_at (heap w) !! r)
           (distribute_mesh value)); [|done].
  intros e x w' Hx Hw'. rewrite <- Hw'. apply distribute_mesh_other.
  intros ->. by apply Hr.
Qed.

(** An element whose index has an engine output is served, whatever the
    loop meets after it. *)
Lemma mesh_loop_reached value els w i r d :
  NoDup els ->
  els !! i = Some r ->
  dc_mesh_at value i = Return d ->
  element_at (heap (snd (for_enumerate (distribute_mesh value) 0 els w))) !! r =
    with_mesh (GeoModel.transform (self w)) d <$> element_at (heap w) !! r.
Proof.
  intros Hnd Hi Hd.
  assert (Hlt : (i < length els)%nat) by (by eapply lookup_lt_Some).
  assert (Hsplit : for_enumerate (distribute_mesh value) 0 els w =
                   for_enumerate (distribute_mesh value) 0
                     (take (S i) els ++ drop (S i) els) w)
    by (by rewrite take_drop).
  rewrite Hsplit, for_enumerate_app.
  assert (Hlen : length (take (S i) els) = S i) by (rewrite length_take; lia).
  destruct (mesh_loop_returns value (take (S i) els) 0 w)
    as (ea & Hrun & _ & Hin).
  { rewrite Hlen. by eapply dc_mesh_at_reaches. }
  rewrite Hrun.
  assert (Htake : take (S i) els !! i = Some r)
    by (rewrite lookup_take_lt; [done|lia]).
  destruct (Hin (sublist_NoDup _ _ Hnd (sublist_take _ _)) i r Htake)
    as (d' & Hd' & Hr).
  simpl in Hd'. rewrite Hd in Hd'. injection Hd' as <-.
  rewrite mesh_loop_outside; [exact Hr|].
  rewrite <- (take_drop (S i) els) in Hnd.
  apply NoDup_app in Hnd as (_ & Hdisj & _). apply Hdisj.
  by eapply list_elem_of_lookup_2.
Qed.

(** C3, as the code has it.  With a slice of each kind for every group, the
    mesh loop runs over the flattened element list without its last entry.
    The last element (the basement) is left as it was.  A covered element
    whose engine output is absent, because there is no mesh list or
    because the list holds None at its index, ends with vertices None and
    edges None, whatever the loop meets after it.  An index past the end
    of the mesh list is not an absent mesh: the assignment raises
    IndexError and the element at that index keeps what it had.  The
    elements of the frame are distinct objects of the store. *)
Theorem solutions_meshes_skip_basement_and_absent (value : Solutions.t) (w : World) :
  distinct_objects (element_at (heap w))
    (StructuralFrame.structural_elements (heap w) (frame_of w)) ->
  (n_groups w <= length (scalar_slices value))%nat ->
  (n_groups w <= length (block_slices value))%nat ->
  (forall r,
     last (StructuralFrame.structural_elements (heap w) (frame_of w)) = Some r ->
     element_at (heap (snd (set_solutions value w))) !! r =
     element_at (heap w) !! r)
  /\ (forall e r,
        StructuralFrame.structural_elements (heap w) (frame_of w) !! e = Some r ->
        (S e < length (StructuralFrame.structural_elements (heap w) (frame_of w)))%nat ->
        dc_mesh_at value e = Return None ->
        exists el,
          element_at (heap (snd (set_solutions value w))) !! r = Some el /\
          StructuralElement.vertices el = None /\
          StructuralElement.edges el = None)
  /\ (forall e r meshes,
        StructuralFrame.structural_elements (heap w) (frame_of w) !! e = Some r ->
        (S e < length (StructuralFrame.structural_elements (heap w) (frame_of w)))%nat ->
        Solutions.dc_meshes value = Some meshes ->
        (length meshes <= e)%nat ->
        fst (set_solutions value w) = Raise IndexError /\
        element_at (heap (snd (set_solutions value w))) !! r =
        element_at (heap w) !! r).
Proof.
  intros [Hnd Hex] Hsf Hbm. rewrite set_solutions_unfold. cbv zeta.
  set (w1 := with_self _ w).
  destruct (group_loop_returns value
              (StructuralFrame.structural_groups (frame_of w)) 0 w1)
    as (ga & Hrun & _ & Hel & _); [done..|].
  rewrite Hrun. set (w2 := with_heap _ w1).
  assert (Hebl : elements_but_last w2 = elements_but_last w).
  { unfold elements_but_last.
    replace (StructuralFrame.structural_elements (heap w2) (frame_of w2))
      with (StructuralFrame.structural_elements (heap w) (frame_of w)); [done|].
    symmetry. apply structural_elements_ext. intros g. apply Hel. }
  rewrite Hebl.
  assert (Hcovered : forall e r,
    StructuralFrame.structural_elements (heap w) (frame_of w) !! e = Some r ->
    (S e < length (StructuralFrame.structural_elements (heap w) (frame_of w)))%nat ->
    elements_but_last w !! e = Some r).
  { intros e r He Hlt. unfold elements_but_last.
    rewrite lookup_take_lt; [done|lia]. }
  split; [|split].
  - intros r Hlast. rewrite mesh_loop_outside; [done|].
    unfold elements_but_last. by apply last_not_among_others.
  - intros e r He Hlt Hnone.
    rewrite (mesh_loop_reached value (elements_but_last w) w2 e r None
               (NoDup_but_last _ Hnd) (Hcovered e r He Hlt) Hnone).
    rewrite Forall_forall in Hex.
    destruct (Hex r) as [el0 Hel0]; [by eapply list_elem_of_lookup_2|].
    simpl. rewrite Hel0. simpl. eauto.
  - intros e r meshes He Hlt Hm Hle.
    assert (Hshort : (length meshes < length (elements_but_last w))%nat).
    { pose proof (lookup_lt_Some _ _ _ (Hcovered e r He Hlt)). lia. }
    destruct (mesh_loop_stops value meshes (elements_but_last w) w2 Hm Hshort)
      as (ea & Hrun2 & Hout & _).
    rewrite Hrun2. simpl. split; [done|]. apply Hout.
    eapply NoDup_not_in_take; [by apply NoDup_but_last|by apply Hcovered|done].
Qed.

Lemma solved_elements_distinct :
  distinct_objects (element_at (heap solved_world))
    (StructuralFrame.structural_elements (heap solved_world)
       (frame_of solved_world)).
Proof.
  split.
  - apply (bool_decide_unpack _). vm_compute. exact I.
  - vm_compute. repeat constructor; eexists; reflexivity.
Defined.

(** After a first solve every covered element of the example has a mesh.
    The second solve has none for the second surface: that surface loses
    its vertices and edges, and the basement is as it was. *)
Lemma solutions_meshes_skip_basement_and_absent_witness :
  (StructuralElement.edges <$> element_at (heap solved_world) !! 11%nat) =
    Some (Some [(3, 4, 5)])
  /\ (exists el,
        element_at (heap (snd (set_solutions demo_solutions solved_world)))
          !! 11%nat = Some el /\
        StructuralElement.vertices el = None /\
        StructuralElement.edges el = None)
  /\ element_at (heap (snd (set_solutions demo_solutions solved_world)))
       !! 13%nat = element_at (heap solved_world) !! 13%nat.
Proof.
  split; [vm_compute; reflexivity|].
  destruct (solutions_meshes_skip_basement_and_absent demo_solutions
              solved_world solved_elements_distinct)
    as (Hlast & Habsent & _).
  - vm_compute. lia.
  - vm_compute. lia.
  - split.
    + apply (Habsent 1%nat 11%nat).
      * vm_compute. reflexivity.
      * vm_compute. lia.
      * vm_compute. reflexivity.
    + apply Hlast. vm_compute. reflexivity.
Defined.

(** The second surface of the solved example is covered and has a mesh; a
    mesh list of one entry has nothing at its index 1.  The assignment
    raises IndexError and the surface keeps its mesh: its edges are not
    None. *)
Lemma short_mesh_list_raises_and_keeps_mesh :
  elements_but_last solved_world !! 1%nat = Some 11%nat
  /\ (exists meshes,
        Solutions.dc_meshes short_mesh_solutions = Some meshes
        /\ meshes !! 1%nat = None)
  /\ fst (set_solutions short_mesh_solutions solved_world) = Raise IndexError
  /\ (StructuralElement.edges <$>
        element_at (heap (snd (set_solutions short_mesh_solutions solved_world)))
          !! 11%nat) = Some (Some [(3, 4, 5)]).
Proof.
  split; [vm_compute; reflexivity|]. split; [by eexists|].
  split; vm_compute; reflexivity.
Qed.

(** ** The round trip of the two affine maps *)

(** C8, as far as it holds.  In exact arithmetic, and with a scale that is
    non-zero on every axis (as the positive scale of a valid transform
    is), the inverse map undoes the forward map on every point of every
    list. *)
Theorem round_trip_exact_in_rational_arithmetic
    (T : Transform.t) (points : list Point) :
  (let '(sx, sy, sz) := Transform.scale T in
   ~ sx == 0 /\ ~ sy == 0 /\ ~ sz == 0)%Q ->
  Forall2 point_eq points (Transform.apply_inverse T (Transform.apply T points)).
Proof.
  destruct T as [[[tx ty] tz] [[sx sy] sz] rot]. simpl.
  intros (Hx & Hy & Hz).
  induction points as [|[[x y] z] points IH]; simpl; constructor; [|exact IH].
  simpl. repeat split; field; assumption.
Qed.

Lemma round_trip_exact_in_rational_arithmetic_witness :
  Forall2 point_eq [pt 1 2 3; pt 0 0 0]
    (Transform.apply_inverse quarter_transform
       (Transform.apply quarter_transform [pt 1 2 3; pt 0 0 0])).
Proof.
  apply (round_trip_exact_in_rational_arithmetic quarter_transform).
  vm_compute. repeat split; discriminate.
Defined.

(** In binary64, with a scale of 0.5 and a translation of -2^70 on each
    axis, the point (1, 1, 1) comes back as (0, 0, 0): the sum 1 - 2^70
    rounds to -2^70.  The round trip is not within a relative tolerance of
    1e-9. *)
Lemma binary64_round_trip_loses_point :
  Transform64.valid far_transform = true
  /\ Transform64.apply_inverse far_transform
       (Transform64.apply far_transform [unit_point]) =
     [(S754_zero false, S754_zero false, S754_zero false)]
  /\ Transform64.within_tolerance (1 # 1000000000) [unit_point]
       (Transform64.apply_inverse far_transform
          (Transform64.apply far_transform [unit_point])) = false.
Proof. vm_compute. repeat split. Qed.
